(** * Live transcriber: transcript assembly and PCM frame encoding

    A shallow embedding of the two pieces of logic of the repository:

    - [utils/audio.ts]: [encode] and [createBlob], the conversion of a
      [Float32Array] of samples into a base64 PCM payload;
    - the [App] component: the [onmessage] handler, the silence-timer
      callback, [stopListening] and the synchronous prefix of
      [startListening], which together assemble the transcript.

    JavaScript strings are sequences of UTF-16 code units; they are modelled
    as [list N].  The browser's table of pending timeouts is a finite set of
    timer handles. *)

From Stdlib Require Import ZArith NArith QArith Qround String Ascii List Lia ZifyNat.
From stdpp Require Import base tactics list gmap.
Import ListNotations.

(** ** JavaScript strings and the built-ins the program calls *)

Module JS.

Definition jsstring := list N.

(** An ASCII literal as a JavaScript string. *)
Definition lit (s : string) : jsstring :=
  List.map N_of_ascii (list_ascii_of_string s).

(** ECMAScript [WhiteSpace] and [LineTerminator] code points: what
    [String.prototype.trim] strips and what [\s] matches. *)
Definition is_ws (c : N) : bool :=
  ((9 <=? c) && (c <=? 13) || (c =? 32) || (c =? 160) || (c =? 5760)
   || (8192 <=? c) && (c <=? 8202) || (c =? 8232) || (c =? 8233)
   || (c =? 8239) || (c =? 8287) || (c =? 12288) || (c =? 65279))%N.

Definition SPACE : N := 32%N.

Fixpoint trimStart (s : jsstring) : jsstring :=
  match s with
  | [] => []
  | c :: r => if is_ws c then trimStart r else s
  end.

Definition trimEnd (s : jsstring) : jsstring := rev (trimStart (rev s)).

(** [s.trim()] *)
Definition trim (s : jsstring) : jsstring := trimEnd (trimStart s).

(** Truthiness of a string: the empty string is the only falsy one. *)
Definition truthy (s : jsstring) : bool :=
  match s with [] => false | _ :: _ => true end.

(** [s.replace(/\s\s+/g, ' ')]: scanning from the left, every maximal run of
    two or more whitespace code units is replaced by one U+0020; a lone
    whitespace code unit is kept as it is.  [in_run] says that the scan is
    inside a run whose replacement has already been emitted. *)
Fixpoint replace_runs (in_run : bool) (s : jsstring) : jsstring :=
  match s with
  | [] => []
  | c :: r =>
      if is_ws c then
        if in_run then replace_runs true r
        else match r with
             | d :: _ => if is_ws d then SPACE :: replace_runs true r
                         else c :: replace_runs false r
             | [] => [c]
             end
      else c :: replace_runs false r
  end.

Definition collapse_ws (s : jsstring) : jsstring := replace_runs false s.

(** The code units of a string that are not whitespace, in order. *)
Definition nonws (s : jsstring) : jsstring :=
  List.filter (fun c => negb (is_ws c)) s.

Definition all_ws (s : jsstring) : Prop := Forall (fun c => is_ws c = true) s.

(** [s.slice(start, end)]: a negative index counts from the end, and both
    indices are clamped to the string. *)
Definition slice (s : jsstring) (start end_ : Z) : jsstring :=
  let len := Z.of_nat (length s) in
  let from := if (start <? 0)%Z then Z.max (len + start) 0 else Z.min start len in
  let to := if (end_ <? 0)%Z then Z.max (len + end_) 0 else Z.min end_ len in
  if (from <? to)%Z
  then firstn (Z.to_nat (to - from)) (skipn (Z.to_nat from) s)
  else [].

(** Two adjacent whitespace code units occur somewhere in the string. *)
Fixpoint has_ws_run (s : jsstring) : bool :=
  match s with
  | [] => false
  | c :: r =>
      match r with
      | d :: _ => (is_ws c && is_ws d) || has_ws_run r
      | [] => false
      end
  end.

(** The string is empty or its last code unit is U+0020. *)
Definition spaced (s : jsstring) : Prop := s = [] \/ exists p, s = p ++ [SPACE].

End JS.

Import JS.

(** ** [utils/audio.ts] *)

Module Audio.

(** A JavaScript number.  A finite [Float32Array] element is a dyadic
    rational and is carried by its exact value; multiplying it by
    [32768 = 2^15] in double precision is exact (the exponent stays far inside
    the range of a double), so the product is again the exact value. *)
Inductive number :=
  | Finite (q : Q)
  | NaN
  | Infinity (negative : bool).

(** [x * 32768] *)
Definition times32768 (x : number) : number :=
  match x with
  | Finite q => Finite (q * 32768)
  | NaN => NaN
  | Infinity b => Infinity b
  end.

(** [truncate]: the integral part, rounding toward zero. *)
Definition truncate (q : Q) : Z := Z.quot (Qnum q) (Z.pos (Qden q)).

(** ECMAScript [ToInt16], the conversion applied by a store into an
    [Int16Array]: not finite gives 0; otherwise truncate, reduce modulo
    [2^16], and read the result as a signed 16-bit integer. *)
Definition ToInt16 (x : number) : Z :=
  match x with
  | Finite q =>
      let int16bit := (truncate q mod 65536)%Z in
      if (32768 <=? int16bit)%Z then (int16bit - 65536)%Z else int16bit
  | NaN | Infinity _ => 0%Z
  end.

(** The two bytes of an [Int16Array] element seen through
    [new Uint8Array(int16.buffer)], low byte first (every platform that runs
    this program is little-endian). *)
Definition int16_bytes (v : Z) : list N :=
  [Z.to_N (v mod 256); Z.to_N ((v / 256) mod 256)].

(** The base64 alphabet, as code units. *)
Definition b64char (i : N) : N :=
  (if i <? 26 then 65 + i
   else if i <? 52 then 97 + (i - 26)
   else if i <? 62 then 48 + (i - 52)
   else if i =? 62 then 43 else 47)%N.

Definition PAD : N := 61%N.

Fixpoint b64groups (s : list N) : jsstring :=
  match s with
  | [] => []
  | [a] => [b64char (a / 4); b64char ((a mod 4) * 16); PAD; PAD]
  | [a; b] =>
      [b64char (a / 4); b64char ((a mod 4) * 16 + b / 16);
       b64char ((b mod 16) * 4); PAD]
  | a :: b :: c :: r =>
      [b64char (a / 4); b64char ((a mod 4) * 16 + b / 16);
       b64char ((b mod 16) * 4 + c / 64); b64char (c mod 64)] ++ b64groups r
  end%N.

(** [btoa(binary)]: throws (here [None]) when a code unit is above 255. *)
Definition btoa (binary : jsstring) : option jsstring :=
  if forallb (fun c => c <? 256)%N binary then Some (b64groups binary) else None.

(** [encode] *)
Definition encode (bytes : list N) : option jsstring :=
  let binary := fold_left (fun binary b => binary ++ [b]) bytes [] in
  btoa binary.

Record Blob := {
  data : jsstring;
  mimeType : jsstring;
}.

(** [createBlob] *)
Definition createBlob (samples : list number) : option Blob :=
  let int16 := List.map (fun x => ToInt16 (times32768 x)) samples in
  match encode (flat_map int16_bytes int16) with
  | Some d => Some {| data := d; mimeType := lit "audio/pcm;rate=16000" |}
  | None => None
  end.

(** Base64 decoding, the inverse against which the payload is read back. *)
Definition b64index (c : N) : option N :=
  (if (65 <=? c) && (c <=? 90) then Some (c - 65)
   else if (97 <=? c) && (c <=? 122) then Some (c - 97 + 26)
   else if (48 <=? c) && (c <=? 57) then Some (c - 48 + 52)
   else if c =? 43 then Some 62
   else if c =? 47 then Some 63
   else None)%N.

Fixpoint base64_decode (s : jsstring) : option (list N) :=
  match s with
  | [] => Some []
  | c1 :: c2 :: c3 :: c4 :: r =>
      match b64index c1, b64index c2 with
      | Some i1, Some i2 =>
          if (c4 =? PAD)%N then
            match r with
            | [] =>
                if (c3 =? PAD)%N then Some [i1 * 4 + i2 / 16]%N
                else match b64index c3 with
                     | Some i3 => Some [i1 * 4 + i2 / 16; (i2 mod 16) * 16 + i3 / 4]%N
                     | None => None
                     end
            | _ :: _ => None
            end
          else
            match b64index c3, b64index c4, base64_decode r with
            | Some i3, Some i4, Some rest =>
                Some ([i1 * 4 + i2 / 16; (i2 mod 16) * 16 + i3 / 4;
                       (i3 mod 4) * 64 + i4]%N ++ rest)
            | _, _, _ => None
            end
      | _, _ => None
      end
  | _ => None
  end.

(** A signed 16-bit integer read back from two bytes, low byte first. *)
Definition int16_of_le (lo hi : N) : Z :=
  let u := (Z.of_N lo + 256 * Z.of_N hi)%Z in
  if (32768 <=? u)%Z then (u - 65536)%Z else u.

(** The sample lies in [[-1, 1)]. *)
Definition in_range (x : Q) : bool := Qle_bool (-1) x && negb (Qle_bool 1 x).

(** The spec's conversion: the nearest integer, halves rounded up. *)
Definition round_nearest (q : Q) : Z := Qfloor (q + (1 # 2)).

(** A code unit of the base64 alphabet, or the padding sign. *)
Definition b64symbol (c : N) : bool :=
  match b64index c with Some _ => true | None => (c =? PAD)%N end.

(** The sample lies in [[1, 2)]. *)
Definition overdriven (x : Q) : bool := Qle_bool 1 x && negb (Qle_bool 2 x).

End Audio.

(** ** The [App] component: transcript assembly

    The handlers run one at a time on the event loop.  A state setter called
    with a function queues that function; React applies the queued functions
    once each, in order, each to the latest value, so a handler is modelled
    by applying its updates in the order it queues them. *)

Module App.

(** [serverContent.inputTranscription] of a [LiveServerMessage], as the
    handler reads it. *)
Record Transcription := {
  text : jsstring;
  isFinal : bool;
}.

Record LiveServerMessage := {
  inputTranscription : option Transcription;
}.

(** The component's state, its refs, and the part of the browser the
    handlers act on: the set of pending timeouts and the handle that the next
    [setTimeout] returns.  Handles are positive integers, so a handle stored
    in [silenceTimerRef] is always truthy. *)
Record State := {
  isListening : bool;
  isListeningRef : bool;
  finalizedTranscription : jsstring;
  inProgressTranscription : jsstring;
  silenceTimerRef : option positive;
  timers : gset positive;
  nextTimer : positive;
}.

Definition initial : State := {|
  isListening := false;
  isListeningRef := false;
  finalizedTranscription := [];
  inProgressTranscription := [];
  silenceTimerRef := None;
  timers := ∅;
  nextTimer := 1%positive;
|}.

Definition setIsListening (b : bool) (s : State) : State :=
  {| isListening := b;
     isListeningRef := isListeningRef s;
     finalizedTranscription := finalizedTranscription s;
     inProgressTranscription := inProgressTranscription s;
     silenceTimerRef := silenceTimerRef s;
     timers := timers s;
     nextTimer := nextTimer s |}.

Definition setIsListeningRef (b : bool) (s : State) : State :=
  {| isListening := isListening s;
     isListeningRef := b;
     finalizedTranscription := finalizedTranscription s;
     inProgressTranscription := inProgressTranscription s;
     silenceTimerRef := silenceTimerRef s;
     timers := timers s;
     nextTimer := nextTimer s |}.

(** [setFinalizedTranscription(f)] with a functional update [f]. *)
Definition setFinalizedTranscription (f : jsstring -> jsstring) (s : State) : State :=
  {| isListening := isListening s;
     isListeningRef := isListeningRef s;
     finalizedTranscription := f (finalizedTranscription s);
     inProgressTranscription := inProgressTranscription s;
     silenceTimerRef := silenceTimerRef s;
     timers := timers s;
     nextTimer := nextTimer s |}.

(** [setInProgressTranscription(f)] where the update [f] may itself queue an
    update of the finalized text: [f] receives the current in-progress text
    and yields the new one together with the nested state update.  Updates
    run once each, in the order they were queued. *)
Definition setInProgressTranscription
    (f : jsstring -> jsstring * (State -> State)) (s : State) : State :=
  let '(next, nested) := f (inProgressTranscription s) in
  let s' := nested s in
  {| isListening := isListening s';
     isListeningRef := isListeningRef s';
     finalizedTranscription := finalizedTranscription s';
     inProgressTranscription := next;
     silenceTimerRef := silenceTimerRef s';
     timers := timers s';
     nextTimer := nextTimer s' |}.

Definition setSilenceTimerRef (r : option positive) (s : State) : State :=
  {| isListening := isListening s;
     isListeningRef := isListeningRef s;
     finalizedTranscription := finalizedTranscription s;
     inProgressTranscription := inProgressTranscription s;
     silenceTimerRef := r;
     timers := timers s;
     nextTimer := nextTimer s |}.

(** [clearTimeout(id)]: the timeout, if still pending, will not fire. *)
Definition clearTimeout (id : positive) (s : State) : State :=
  {| isListening := isListening s;
     isListeningRef := isListeningRef s;
     finalizedTranscription := finalizedTranscription s;
     inProgressTranscription := inProgressTranscription s;
     silenceTimerRef := silenceTimerRef s;
     timers := timers s ∖ {[id]};
     nextTimer := nextTimer s |}.

(** [setTimeout(callback, SILENCE_THRESHOLD_MS)]: a fresh handle becomes
    pending.  The only callback the program ever schedules is
    [silenceCallback] below, so the table records handles only. *)
Definition setTimeout (s : State) : positive * State :=
  (nextTimer s,
   {| isListening := isListening s;
      isListeningRef := isListeningRef s;
      finalizedTranscription := finalizedTranscription s;
      inProgressTranscription := inProgressTranscription s;
      silenceTimerRef := silenceTimerRef s;
      timers := {[nextTimer s]} ∪ timers s;
      nextTimer := Pos.succ (nextTimer s) |}).

Definition SILENCE_THRESHOLD_MS : N := 900%N.

(** [if (silenceTimerRef.current) clearTimeout(silenceTimerRef.current);] *)
Definition clearSilenceTimer (s : State) : State :=
  match silenceTimerRef s with
  | Some id => clearTimeout id s
  | None => s
  end.

(** The functional update shared by the timer callback and [stopListening]:
<<
  currentInProgress => {
    if (currentInProgress.trim()) {
      setFinalizedTranscription(currentFinalized =>
        (currentFinalized + currentInProgress.trim() + ' ').replace(/\s\s+/g, ' '));
    }
    return '';
  }
>> *)
Definition flushUpdate (currentInProgress : jsstring) : jsstring * (State -> State) :=
  ([],
   if truthy (trim currentInProgress)
   then setFinalizedTranscription (fun currentFinalized =>
          collapse_ws (currentFinalized ++ trim currentInProgress ++ [SPACE]))
   else fun s => s).

(** The body of the callback passed to [setTimeout]. *)
Definition silenceCallback (s : State) : State :=
  setInProgressTranscription flushUpdate s.

(** [onmessage] *)
Definition onmessage (message : LiveServerMessage) (s : State) : State :=
  match inputTranscription message with
  | None => s
  | Some result =>
      let text := text result in
      if isFinal result then
        let s := clearSilenceTimer s in
        setInProgressTranscription (fun currentInProgress =>
          ([], setFinalizedTranscription (fun currentFinalized =>
                 trim (currentFinalized ++ currentInProgress ++ text) ++ [SPACE]))) s
      else
        let s := setInProgressTranscription (fun prev => (prev ++ text, fun s => s)) s in
        let s := clearSilenceTimer s in
        let '(id, s) := setTimeout s in
        setSilenceTimerRef (Some id) s
  end.

(** [stopListening], as far as the transcript and the timer are concerned
    (closing the session and the audio nodes does not touch them). *)
Definition stopListening (s : State) : State :=
  if negb (isListeningRef s) then s
  else
    let s := setIsListening false s in
    let s := match silenceTimerRef s with
             | Some id => setSilenceTimerRef None (clearTimeout id s)
             | None => s
             end in
    setInProgressTranscription flushUpdate s.

(** The synchronous prefix of [startListening], up to the first [await]. *)
Definition startListening (s : State) : State :=
  if isListening s then s
  else
    let s := setIsListening true s in
    let s := setFinalizedTranscription (fun _ => []) s in
    setInProgressTranscription (fun _ => ([], fun s => s)) s.

(** The effect [isListeningRef.current = isListening], run after a render. *)
Definition syncListeningRef (s : State) : State :=
  setIsListeningRef (isListening s) s.

(** What can happen to the component.  A timeout can fire only while it is
    pending, and firing removes it from the table. *)
Inductive Event :=
  | Start
  | Rendered
  | Stop
  | Message (m : LiveServerMessage)
  | TimerFires (id : positive).

Definition step (s : State) (e : Event) : option State :=
  match e with
  | Start => Some (startListening s)
  | Rendered => Some (syncListeningRef s)
  | Stop => Some (stopListening s)
  | Message m => Some (onmessage m s)
  | TimerFires id =>
      if decide (id ∈ timers s)
      then Some (silenceCallback (clearTimeout id s))
      else None
  end.

Fixpoint run (s : State) (es : list Event) : option State :=
  match es with
  | [] => Some s
  | e :: es' =>
      match step s e with
      | Some s' => run s' es'
      | None => None
      end
  end.

(** A message that carries a transcript fragment, and its arrival. *)
Definition transcript (t : jsstring) (final : bool) : LiveServerMessage :=
  {| inputTranscription := Some {| text := t; isFinal := final |} |}.

Definition fragment (t : jsstring) (final : bool) : Event :=
  Message (transcript t final).

(** The text delivered by the fragments of a sequence of events. *)
Fixpoint delivered (es : list Event) : jsstring :=
  match es with
  | [] => []
  | Message {| inputTranscription := Some r |} :: es' => text r ++ delivered es'
  | _ :: es' => delivered es'
  end.

(** A session that has just started and rendered: both buffers empty. *)
Definition listening : State := syncListeningRef (startListening initial).

(** An event of a running session: anything but a new [Start], which
    empties both buffers. *)
Definition in_session (e : Event) : bool :=
  match e with Start => false | _ => true end.

(** The timer discipline: a pending timeout is the one held in
    [silenceTimerRef], and handles still to be issued are not pending. *)
Definition timer_inv (s : State) : Prop :=
  (forall id, id ∈ timers s -> silenceTimerRef s = Some id) /\
  (forall id, id ∈ timers s -> (id < nextTimer s)%positive).

(** [handleToggleListening], the button's click handler.  In a state that
    has rendered, the [isListening] it closes over is the current one. *)
Definition handleToggleListening (s : State) : State :=
  if isListening s then stopListening s else startListening s.

(** Events that carry no message and start no session. *)
Definition quiet (e : Event) : bool :=
  match e with
  | Stop | Rendered | TimerFires _ => true
  | Start | Message _ => false
  end.

End App.

Import App.

(** ** [App.tsx]: the transcript of the first version of the component

    This version keeps one [transcription] string and, in a ref, the text of
    the turn in progress. *)

Module AppTsx.

Record LiveServerMessage := {
  inputTranscription : option jsstring;
  turnComplete : bool;
}.

Record State := {
  transcription : jsstring;
  currentTranscriptionRef : jsstring;
}.

(** The buffers as [startListening] sets them. *)
Definition started : State :=
  {| transcription := []; currentTranscriptionRef := [] |}.

(** [onmessage] *)
Definition onmessage (message : LiveServerMessage) (s : State) : State :=
  let s :=
    match inputTranscription message with
    | Some text =>
        {| transcription := transcription s ++ text;
           currentTranscriptionRef := currentTranscriptionRef s ++ text |}
    | None => s
    end in
  if turnComplete message then
    let fullTurn := currentTranscriptionRef s in
    {| transcription :=
         (let prev := transcription s in
          let base := slice prev 0 (- Z.of_nat (length fullTurn)) in
          trim (base ++ fullTurn) ++ [SPACE]);
       currentTranscriptionRef := [] |}
  else s.

Fixpoint receive (s : State) (ms : list LiveServerMessage) : State :=
  match ms with
  | [] => s
  | m :: ms' => receive (onmessage m s) ms'
  end.

End AppTsx.



Example trim_ex : trim (lit "  a b  ") = lit "a b".
Proof. reflexivity. Qed.

Example collapse_ex : collapse_ws (lit "a    b  c d ") = lit "a b c d ".
Proof. reflexivity. Qed.

Example run_ex :
  run listening [fragment (lit "Hello ") false; fragment (lit "world") false; TimerFires 2]
  = Some {| isListening := true; isListeningRef := true;
            finalizedTranscription := lit "Hello world ";
            inProgressTranscription := [];
            silenceTimerRef := Some 2%positive; timers := ∅; nextTimer := 3 |}.
Proof. vm_compute. reflexivity. Qed.

Example blob_ex :
  Audio.createBlob [Audio.Finite (1 # 2); Audio.Finite (- 1 # 2)]
  = Some {| Audio.data := lit "AEAAwA=="; Audio.mimeType := lit "audio/pcm;rate=16000" |}.
Proof. vm_compute. reflexivity. Qed.

Example blob_dec : Audio.base64_decode (lit "AEAAwA==") = Some [0; 64; 0; 192]%N.
Proof. vm_compute. reflexivity. Qed.

(** ** Facts about the string built-ins *)

Section StringFacts.

Implicit Types s t : jsstring.

Lemma nonws_app s t : nonws (s ++ t) = nonws s ++ nonws t.
Proof. apply List.filter_app. Qed.

Lemma nonws_space : nonws [SPACE] = [].
Proof. reflexivity. Qed.

Lemma trimStart_split s : exists l, all_ws l /\ s = l ++ trimStart s.
Proof.
  induction s as [|c s [l [Hl Hs]]]; simpl.
  - exists []. split; [constructor | reflexivity].
  - destruct (is_ws c) eqn:Hc.
    + exists (c :: l). split; [now constructor | simpl; congruence].
    + exists []. split; [constructor | reflexivity].
Qed.

Lemma all_ws_rev s : all_ws s -> all_ws (rev s).
Proof. unfold all_ws. rewrite !List.Forall_forall. intros H c Hc. apply H. now apply in_rev. Qed.

Lemma all_ws_nonws s : all_ws s -> nonws s = [].
Proof.
  induction 1 as [|c s Hc _ IH]; simpl; [reflexivity|]. now rewrite Hc.
Qed.

Lemma trimEnd_split s : exists r, all_ws r /\ s = trimEnd s ++ r.
Proof.
  unfold trimEnd. destruct (trimStart_split (rev s)) as [l [Hl Hs]].
  exists (rev l). split; [now apply all_ws_rev|].
  rewrite <- (rev_involutive s) at 1. rewrite Hs at 1. apply rev_app_distr.
Qed.

(** [trim] removes a whitespace prefix and a whitespace suffix, nothing else. *)
Lemma trim_split s : exists l r, all_ws l /\ all_ws r /\ s = l ++ trim s ++ r.
Proof.
  destruct (trimStart_split s) as [l [Hl Hs]].
  destruct (trimEnd_split (trimStart s)) as [r [Hr Ht]].
  exists l, r. repeat split; try assumption.
  unfold trim. congruence.
Qed.

Lemma nonws_trim s : nonws (trim s) = nonws s.
Proof.
  destruct (trim_split s) as [l [r [Hl [Hr Hs]]]].
  rewrite Hs at 2. rewrite !nonws_app, (all_ws_nonws l Hl), (all_ws_nonws r Hr).
  simpl. now rewrite app_nil_r.
Qed.

Lemma nonws_cons c s : nonws (c :: s) = if is_ws c then nonws s else c :: nonws s.
Proof. unfold nonws. simpl. now destruct (is_ws c). Qed.

Lemma replace_runs_cons b c r :
  replace_runs b (c :: r) =
  if is_ws c then
    if b then replace_runs true r
    else match r with
         | d :: _ => if is_ws d then SPACE :: replace_runs true r
                     else c :: replace_runs false r
         | [] => [c]
         end
  else c :: replace_runs false r.
Proof. reflexivity. Qed.

Lemma nonws_replace_runs b s : nonws (replace_runs b s) = nonws s.
Proof.
  revert b. induction s as [|c s IH]; intros b; [reflexivity|].
  rewrite replace_runs_cons, (nonws_cons c s).
  destruct (is_ws c) eqn:Hc.
  - destruct b; [apply IH|].
    destruct s as [|d s']; [now rewrite nonws_cons, Hc|].
    destruct (is_ws d) eqn:Hd.
    + rewrite nonws_cons. change (is_ws SPACE) with true. apply IH.
    + rewrite nonws_cons, Hc. apply IH.
  - rewrite nonws_cons, Hc. f_equal. apply IH.
Qed.

Lemma nonws_collapse_ws s : nonws (collapse_ws s) = nonws s.
Proof. apply nonws_replace_runs. Qed.

Lemma trimStart_all_ws s : all_ws s -> trimStart s = [].
Proof. induction 1 as [|c s Hc _ IH]; simpl; [reflexivity|]. now rewrite Hc. Qed.

(** A trimmed string is empty exactly when the string is blank. *)
Lemma trim_blank s : truthy (trim s) = false <-> all_ws s.
Proof.
  split.
  - intros H. destruct (trim_split s) as [l [r [Hl [Hr Hs]]]].
    destruct (trim s); [|discriminate]. rewrite Hs. simpl.
    unfold all_ws in *. apply Forall_app; auto.
  - intros H. unfold trim. now rewrite (trimStart_all_ws s H).
Qed.

End StringFacts.

(** ** More on the string built-ins *)

Section StringMore.

Implicit Types s t : jsstring.

Lemma trimStart_app_ws l s : all_ws l -> trimStart (l ++ s) = trimStart s.
Proof. induction 1 as [|c l Hc _ IH]; simpl; [reflexivity|]. now rewrite Hc. Qed.

Lemma trimEnd_app_ws s r : all_ws r -> trimEnd (s ++ r) = trimEnd s.
Proof.
  intros Hr. unfold trimEnd. rewrite rev_app_distr.
  now rewrite trimStart_app_ws by now apply all_ws_rev.
Qed.

Lemma trimEnd_last s d : is_ws d = false -> trimEnd (s ++ [d]) = s ++ [d].
Proof.
  intros Hd. unfold trimEnd. rewrite rev_app_distr. simpl. rewrite Hd.
  change (d :: rev s) with ([d] ++ rev s). rewrite rev_app_distr, rev_involutive.
  reflexivity.
Qed.

Lemma trimStart_head s :
  match trimStart s with c :: _ => is_ws c = false | [] => True end.
Proof.
  induction s as [|c s IH]; simpl; [exact I|].
  destruct (is_ws c) eqn:Hc; [exact IH|exact Hc].
Qed.

(** A trimmed string is empty, or starts and ends with a code unit that is
    not whitespace. *)
Lemma trim_tight s :
  trim s = [] \/
  exists c m d n, trim s = c :: m /\ is_ws c = false /\ trim s = n ++ [d] /\ is_ws d = false.
Proof.
  unfold trim. set (u := trimStart s).
  destruct (trimEnd u) as [|c m] eqn:E; [now left|right].
  pose proof (trimStart_head s) as Hu. fold u in Hu.
  destruct (trimEnd_split u) as [r [Hr Hs]]. rewrite E in Hs.
  assert (Hc : is_ws c = false).
  { destruct u as [|c' u']; [discriminate|]. simpl in Hs. now injection Hs as -> _. }
  unfold trimEnd in E. pose proof (trimStart_head (rev u)) as Hw.
  destruct (trimStart (rev u)) as [|d w]; [discriminate|].
  simpl in E. exists c, m, d, (rev w). repeat split; try assumption. now symmetry.
Qed.

Lemma trim_trim_space s : trim (trim s ++ [SPACE]) = trim s.
Proof.
  destruct (trim_tight s) as [E|(c & m & d & n & Ec & Hc & Ed & Hd)].
  - now rewrite E.
  - unfold trim at 1. rewrite Ec at 1. simpl trimStart. rewrite Hc.
    change (c :: m ++ [SPACE]) with ((c :: m) ++ [SPACE]). rewrite <- Ec.
    rewrite trimEnd_app_ws by (repeat constructor).
    rewrite Ed. now apply trimEnd_last.
Qed.

Lemma has_ws_run_cons c s :
  has_ws_run (c :: s) =
  match s with
  | d :: _ => (is_ws c && is_ws d) || has_ws_run s
  | [] => false
  end.
Proof. reflexivity. Qed.

(** After the replacement no two whitespace code units are adjacent; inside
    a run the next code unit produced is not whitespace. *)
Lemma replace_runs_no_run s : forall b,
  has_ws_run (replace_runs b s) = false /\
  (b = true ->
   match replace_runs b s with c :: _ => is_ws c = false | [] => True end).
Proof.
  induction s as [|c s IH]; intros b; [now split|].
  rewrite replace_runs_cons. destruct (is_ws c) eqn:Hc.
  - destruct b.
    + destruct (IH true) as [H1 H2]. split; [exact H1|intros _; now apply H2].
    + split; [|discriminate].
      destruct s as [|d s']; [reflexivity|].
      destruct (is_ws d) eqn:Hd.
      * destruct (IH true) as [H1 H2]. specialize (H2 eq_refl).
        rewrite has_ws_run_cons. destruct (replace_runs true (d :: s')) as [|e r'];
          [reflexivity|]. now rewrite H2, andb_false_r, H1.
      * destruct (IH false) as [H1 _]. rewrite has_ws_run_cons.
        rewrite replace_runs_cons, Hd in *. now rewrite Hd, andb_false_r, H1.
  - destruct (IH false) as [H1 _]. split; [|intros _; exact Hc].
    rewrite has_ws_run_cons. destruct (replace_runs false s); [reflexivity|].
    now rewrite Hc, H1.
Qed.

(** The replacement keeps a final space. *)
Lemma replace_runs_ends_space s : forall b,
  (exists p, replace_runs b (s ++ [SPACE]) = p ++ [SPACE]) \/
  (b = true /\ replace_runs b (s ++ [SPACE]) = []).
Proof.
  induction s as [|c s IH]; intros b.
  - destruct b; [right; now split|left; now exists []].
  - change ((c :: s) ++ [SPACE]) with (c :: (s ++ [SPACE])).
    rewrite replace_runs_cons. destruct (is_ws c) eqn:Hc.
    + destruct b; [apply IH|]. left.
      destruct (s ++ [SPACE]) as [|d r] eqn:E; [now destruct s|].
      destruct (is_ws d) eqn:Hd.
      * destruct (IH true) as [[p Hp]|[_ Hp]]; rewrite Hp.
        -- now exists (SPACE :: p).
        -- now exists [].
      * destruct (IH false) as [[p Hp]|[Hb _]]; [|discriminate].
        rewrite Hp. now exists (c :: p).
    + left. destruct (IH false) as [[p Hp]|[Hb _]]; [|discriminate].
      rewrite Hp. now exists (c :: p).
Qed.

Lemma collapse_ws_spaced s : spaced (collapse_ws (s ++ [SPACE])).
Proof.
  right. destruct (replace_runs_ends_space s false) as [H|[Hb _]]; [exact H|discriminate].
Qed.

Lemma truthy_false s : truthy s = false <-> s = [].
Proof. destruct s; simpl; split; congruence. Qed.

Lemma trim_empty_blank s : trim s = [] <-> all_ws s.
Proof. rewrite <- trim_blank. symmetry. apply truthy_false. Qed.

(** A code unit that is not whitespace ends whatever run came before it. *)
Lemma replace_runs_app_nonws s c r : forall b,
  is_ws c = false ->
  replace_runs b (s ++ c :: r) = replace_runs b s ++ replace_runs false (c :: r).
Proof.
  induction s as [|a s IH]; intros b Hc.
  - cbn [app]. rewrite !replace_runs_cons, Hc. reflexivity.
  - change ((a :: s) ++ c :: r) with (a :: (s ++ c :: r)).
    rewrite !(replace_runs_cons b a). destruct (is_ws a) eqn:Ha.
    + destruct b; [now apply IH|].
      destruct s as [|d s'].
      * cbn [app]. rewrite Hc. reflexivity.
      * cbn [app]. destruct (is_ws d);
          change (d :: s' ++ c :: r) with ((d :: s') ++ c :: r);
          rewrite IH by exact Hc; reflexivity.
    + rewrite IH by exact Hc. reflexivity.
Qed.

(** A string without whitespace runs is left as it is. *)
Lemma collapse_ws_fixed s : has_ws_run s = false -> collapse_ws s = s.
Proof.
  unfold collapse_ws. induction s as [|c s IH]; intros H; [reflexivity|].
  rewrite replace_runs_cons. rewrite has_ws_run_cons in H.
  destruct s as [|d s']; [now destruct (is_ws c)|].
  apply orb_false_elim in H as [Hcd Hs]. rewrite (IH Hs).
  destruct (is_ws c); [|reflexivity].
  cbn [andb] in Hcd. now rewrite Hcd.
Qed.

(** Merging a trimmed, non-empty text and a space into a text: each part is
    collapsed on its own, and the space stays. *)
Lemma collapse_ws_merge f m :
  trim m <> [] ->
  collapse_ws (f ++ trim m ++ [SPACE]) =
  collapse_ws f ++ collapse_ws (trim m) ++ [SPACE].
Proof.
  intros Hne. destruct (trim_tight m) as [E|(c & m' & d & n & Ec & Hc & Ed & Hd)];
    [contradiction|].
  unfold collapse_ws. rewrite Ec at 1. cbn [app].
  rewrite (replace_runs_app_nonws f c (m' ++ [SPACE]) false Hc). f_equal.
  change (c :: m' ++ [SPACE]) with ((c :: m') ++ [SPACE]). rewrite <- Ec, Ed.
  rewrite <- app_assoc. cbn [app].
  rewrite (replace_runs_app_nonws n d [SPACE] false Hd).
  rewrite (replace_runs_app_nonws n d [] false Hd).
  rewrite !replace_runs_cons, Hd. cbn. now rewrite <- app_assoc.
Qed.

End StringMore.

(** ** Facts about the handlers *)

Section HandlerFacts.

Implicit Types (s : State) (t : jsstring) (e : Event).

Lemma silenceCallback_finalized s :
  finalizedTranscription (silenceCallback s) =
  if truthy (trim (inProgressTranscription s))
  then collapse_ws (finalizedTranscription s ++ trim (inProgressTranscription s) ++ [SPACE])
  else finalizedTranscription s.
Proof.
  unfold silenceCallback, setInProgressTranscription, flushUpdate.
  now destruct (truthy _).
Qed.

Lemma silenceCallback_inProgress s : inProgressTranscription (silenceCallback s) = [].
Proof. reflexivity. Qed.

Lemma silenceCallback_frame s :
  isListening (silenceCallback s) = isListening s /\
  isListeningRef (silenceCallback s) = isListeningRef s /\
  silenceTimerRef (silenceCallback s) = silenceTimerRef s /\
  timers (silenceCallback s) = timers s /\
  nextTimer (silenceCallback s) = nextTimer s.
Proof.
  unfold silenceCallback, setInProgressTranscription, flushUpdate.
  now destruct (truthy _).
Qed.

Lemma state_eq s s' :
  isListening s = isListening s' ->
  isListeningRef s = isListeningRef s' ->
  finalizedTranscription s = finalizedTranscription s' ->
  inProgressTranscription s = inProgressTranscription s' ->
  silenceTimerRef s = silenceTimerRef s' ->
  timers s = timers s' ->
  nextTimer s = nextTimer s' ->
  s = s'.
Proof. destruct s, s'; simpl; intros; congruence. Qed.

(** The flush changes nothing but the two buffers, and the new finalized
    text has the non-whitespace code units of both buffers, in order. *)
Lemma silenceCallback_nonws s :
  nonws (finalizedTranscription (silenceCallback s)) =
  nonws (finalizedTranscription s) ++ nonws (inProgressTranscription s).
Proof.
  rewrite silenceCallback_finalized.
  destruct (truthy (trim (inProgressTranscription s))) eqn:E.
  - now rewrite nonws_collapse_ws, !nonws_app, nonws_trim, nonws_space, app_nil_r.
  - apply trim_blank in E. now rewrite (all_ws_nonws _ E), app_nil_r.
Qed.

Lemma silenceCallback_idem s : silenceCallback (silenceCallback s) = silenceCallback s.
Proof.
  destruct (silenceCallback_frame (silenceCallback s)) as (H1 & H2 & H3 & H4 & H5).
  apply state_eq; try assumption; try reflexivity.
Qed.

Lemma onmessage_partial s t :
  onmessage (transcript t false) s =
  {| isListening := isListening s;
     isListeningRef := isListeningRef s;
     finalizedTranscription := finalizedTranscription s;
     inProgressTranscription := inProgressTranscription s ++ t;
     silenceTimerRef := Some (nextTimer s);
     timers := {[nextTimer s]} ∪
               match silenceTimerRef s with
               | Some id => timers s ∖ {[id]}
               | None => timers s
               end;
     nextTimer := Pos.succ (nextTimer s) |}.
Proof.
  unfold onmessage, clearSilenceTimer, setInProgressTranscription; simpl.
  now destruct (silenceTimerRef s).
Qed.

Lemma onmessage_final s t :
  onmessage (transcript t true) s =
  {| isListening := isListening s;
     isListeningRef := isListeningRef s;
     finalizedTranscription :=
       trim (finalizedTranscription s ++ inProgressTranscription s ++ t) ++ [SPACE];
     inProgressTranscription := [];
     silenceTimerRef := silenceTimerRef s;
     timers := match silenceTimerRef s with
               | Some id => timers s ∖ {[id]}
               | None => timers s
               end;
     nextTimer := nextTimer s |}.
Proof.
  unfold onmessage, clearSilenceTimer, setInProgressTranscription; simpl.
  destruct (silenceTimerRef s) eqn:E; simpl; now rewrite ?E.
Qed.

Lemma stopListening_listening s :
  isListeningRef s = true ->
  stopListening s =
  {| isListening := false;
     isListeningRef := true;
     finalizedTranscription := finalizedTranscription (silenceCallback s);
     inProgressTranscription := [];
     silenceTimerRef := None;
     timers := match silenceTimerRef s with
               | Some id => timers s ∖ {[id]}
               | None => timers s
               end;
     nextTimer := nextTimer s |}.
Proof.
  intros H. rewrite silenceCallback_finalized.
  unfold stopListening. rewrite H. simpl.
  unfold setInProgressTranscription, flushUpdate.
  destruct (silenceTimerRef s) eqn:E; simpl; rewrite ?E;
    destruct (truthy (trim (inProgressTranscription s))); simpl; rewrite ?H, ?E; reflexivity.
Qed.

Lemma stopListening_idle s : isListeningRef s = false -> stopListening s = s.
Proof. intros H. unfold stopListening. now rewrite H. Qed.

End HandlerFacts.

(** ** The timer discipline *)

Section TimerDiscipline.

Implicit Types (s : State) (e : Event).

Lemma timer_inv_initial : timer_inv initial.
Proof. split; intros id H; cbn in H; set_solver. Qed.

Lemma timer_inv_shrink s s' :
  timer_inv s ->
  timers s' ⊆ timers s ->
  silenceTimerRef s' = silenceTimerRef s ->
  nextTimer s' = nextTimer s ->
  timer_inv s'.
Proof.
  intros [H1 H2] Hsub Href Hnext. split; intros id Hid.
  - rewrite Href. apply H1. set_solver.
  - rewrite Hnext. apply H2. set_solver.
Qed.

(** Once the timer held in the ref is cleared, nothing is pending. *)
Lemma timer_inv_cleared s :
  timer_inv s ->
  match silenceTimerRef s with
  | Some id => timers s ∖ {[id]}
  | None => timers s
  end = ∅.
Proof.
  intros [H1 _]. destruct (silenceTimerRef s) as [id|] eqn:E.
  - apply set_eq. intros x. split; [|set_solver].
    intros Hx. apply elem_of_difference in Hx as [Hx Hne].
    specialize (H1 x Hx). set_solver.
  - apply set_eq. intros x. split; [|set_solver].
    intros Hx. specialize (H1 x Hx). discriminate.
Qed.

Lemma startListening_timers s :
  timers (startListening s) = timers s /\
  silenceTimerRef (startListening s) = silenceTimerRef s /\
  nextTimer (startListening s) = nextTimer s.
Proof. unfold startListening. now destruct (isListening s). Qed.

Lemma step_timer_inv s e s' : timer_inv s -> step s e = Some s' -> timer_inv s'.
Proof.
  intros Hinv Hstep. destruct e as [| | |[[[t [|]]|]]|id]; simpl in Hstep.
  - injection Hstep as <-. destruct (startListening_timers s) as (Ht & Hr & Hn).
    apply (timer_inv_shrink s); [assumption|now rewrite Ht|assumption|assumption].
  - injection Hstep as <-. now apply (timer_inv_shrink s).
  - injection Hstep as <-. destruct (isListeningRef s) eqn:L.
    + rewrite (stopListening_listening s L). split; cbn; intros id Hid;
        rewrite (timer_inv_cleared s Hinv) in Hid; now apply not_elem_of_empty in Hid.
    + now rewrite (stopListening_idle s L).
  - injection Hstep as <-. change (timer_inv (onmessage (transcript t true) s)).
    rewrite onmessage_final.
    split; cbn; intros id Hid; rewrite (timer_inv_cleared s Hinv) in Hid;
      now apply not_elem_of_empty in Hid.
  - injection Hstep as <-. change (timer_inv (onmessage (transcript t false) s)).
    rewrite onmessage_partial.
    split; cbn; intros id Hid; rewrite (timer_inv_cleared s Hinv) in Hid;
      assert (id = nextTimer s) as ->
        by (apply elem_of_union in Hid as [Hid|Hid];
            [now apply elem_of_singleton in Hid | now apply not_elem_of_empty in Hid]);
      [reflexivity|lia].
  - injection Hstep as <-. exact Hinv.
  - destruct (decide (id ∈ timers s)); [|discriminate]. injection Hstep as <-.
    destruct (silenceCallback_frame (clearTimeout id s)) as (_ & _ & Hr & Ht & Hn).
    apply (timer_inv_shrink s); [assumption| | now rewrite Hr | now rewrite Hn].
    rewrite Ht. cbn. intros x Hx. now apply elem_of_difference in Hx as [Hx _].
Qed.

Lemma run_timer_inv es : forall s s', timer_inv s -> run s es = Some s' -> timer_inv s'.
Proof.
  induction es as [|e es IH]; intros s s' Hinv Hrun; simpl in Hrun.
  - now injection Hrun as <-.
  - destruct (step s e) as [s1|] eqn:E; [|discriminate].
    apply (IH s1); [now apply (step_timer_inv s e)|assumption].
Qed.

Lemma timer_inv_size s : timer_inv s -> size (timers s) <= 1.
Proof.
  intros [H1 _]. destruct (silenceTimerRef s) as [id|] eqn:E.
  - assert (Hsub : timers s ⊆ {[id]}).
    { intros x Hx. specialize (H1 x Hx). set_solver. }
    apply subseteq_size in Hsub. now rewrite size_singleton in Hsub.
  - assert (Hempty : timers s = ∅).
    { apply set_eq. intros x. split; [|set_solver]. intros Hx. specialize (H1 x Hx). discriminate. }
    rewrite Hempty, size_empty. lia.
Qed.

End TimerDiscipline.

(** ** The transcript assembler *)

Section Assembler.

Implicit Types (s : State) (t : jsstring) (e : Event).

(** C2.  A final fragment commits at once: the in-progress text becomes
    empty, the finalized text becomes the old finalized text followed by the
    old in-progress text and the fragment's text, trimmed, with one space
    appended.  Trimming removes a blank prefix and a blank suffix and leaves
    no blank end: the trimmed text is empty, exactly when everything was
    whitespace, or it starts and ends with a code unit that is not
    whitespace.  So every non-whitespace code unit is kept once and in order.
    No timeout is scheduled: no handle is issued, the one held in the ref is
    no longer pending, and nothing else becomes pending.  The final fragments
    "a" and then "b  " give "a b "; the final fragment "  x " gives "x ". *)
Theorem final_fragment_commits s t :
  inProgressTranscription (onmessage (transcript t true) s) = [] /\
  finalizedTranscription (onmessage (transcript t true) s) =
    trim (finalizedTranscription s ++ inProgressTranscription s ++ t) ++ [SPACE] /\
  (exists l r, all_ws l /\ all_ws r /\
     finalizedTranscription s ++ inProgressTranscription s ++ t =
     l ++ trim (finalizedTranscription s ++ inProgressTranscription s ++ t) ++ r) /\
  nonws (finalizedTranscription (onmessage (transcript t true) s)) =
    nonws (finalizedTranscription s) ++ nonws (inProgressTranscription s) ++ nonws t /\
  nextTimer (onmessage (transcript t true) s) = nextTimer s /\
  timers (onmessage (transcript t true) s) ⊆ timers s /\
  match silenceTimerRef s with
  | Some id => id ∉ timers (onmessage (transcript t true) s)
  | None => True
  end /\
  (trim (finalizedTranscription s ++ inProgressTranscription s ++ t) = [] \/
   exists c m d n,
     trim (finalizedTranscription s ++ inProgressTranscription s ++ t) = c :: m /\
     is_ws c = false /\
     trim (finalizedTranscription s ++ inProgressTranscription s ++ t) = n ++ [d] /\
     is_ws d = false /\
     finalizedTranscription (onmessage (transcript t true) s) = n ++ [d; SPACE]) /\
  (finalizedTranscription (onmessage (transcript t true) s) = [SPACE] <->
   all_ws (finalizedTranscription s ++ inProgressTranscription s ++ t)) /\
  finalizedTranscription
    (onmessage (transcript (lit "b  ") true) (onmessage (transcript (lit "a") true) listening))
    = lit "a b " /\
  finalizedTranscription (onmessage (transcript (lit "  x ") true) listening) = lit "x ".
Proof.
  rewrite onmessage_final. cbn [inProgressTranscription finalizedTranscription nextTimer timers].
  split; [reflexivity|]. split; [reflexivity|]. split; [apply trim_split|].
  split; [now rewrite nonws_app, nonws_trim, nonws_space, app_nil_r, !nonws_app|].
  split; [reflexivity|]. split.
  { destruct (silenceTimerRef s); [|reflexivity].
    intros x Hx. now apply elem_of_difference in Hx as [Hx _]. }
  split.
  { destruct (silenceTimerRef s) as [id|]; [|exact I].
    intros Hid. apply elem_of_difference in Hid as [_ Hid].
    apply Hid. now apply elem_of_singleton. }
  split.
  { destruct (trim_tight (finalizedTranscription s ++ inProgressTranscription s ++ t))
      as [E|(c & m & d & n & Ec & Hc & Ed & Hd)]; [now left|right].
    exists c, m, d, n. repeat split; try assumption.
    rewrite Ed, <- app_assoc. reflexivity. }
  split.
  { rewrite <- trim_empty_blank. split.
    - intros H. change [SPACE] with ([] ++ [SPACE]) in H. now apply app_inv_tail in H.
    - now intros ->. }
  split; reflexivity.
Qed.

(** C3, as the code has it.  When the silence timeout fires, the in-progress
    text becomes empty.  It is blank exactly when it is all whitespace, and
    then the finalized text is unchanged.  Otherwise it is trimmed (a blank
    prefix and suffix removed, no blank end left), a space is appended, the
    result is appended to the finalized text, and every run of two or more
    whitespace code units of the whole is replaced by one space: the new
    finalized text is the collapsed old one followed by the collapsed trimmed
    text and one space, it has no two adjacent whitespace code units, it is
    the plain concatenation when that has no such run, and it keeps the
    non-whitespace code units of both buffers in order.  The callback
    changes nothing exactly when the in-progress text is empty, and running
    it a second time changes nothing.  The two partial fragments "Hello " and
    "world" followed by the timeout give "Hello world "; a lone tab is kept
    and a run of tabs becomes a space. *)
Theorem silence_timeout_flushes s :
  inProgressTranscription (silenceCallback s) = [] /\
  finalizedTranscription (silenceCallback s) =
    (if truthy (trim (inProgressTranscription s))
     then collapse_ws (finalizedTranscription s ++ trim (inProgressTranscription s) ++ [SPACE])
     else finalizedTranscription s) /\
  silenceCallback
    {| isListening := isListening s; isListeningRef := isListeningRef s;
       finalizedTranscription := finalizedTranscription s;
       inProgressTranscription := [];
       silenceTimerRef := silenceTimerRef s; timers := timers s;
       nextTimer := nextTimer s |} =
    {| isListening := isListening s; isListeningRef := isListeningRef s;
       finalizedTranscription := finalizedTranscription s;
       inProgressTranscription := [];
       silenceTimerRef := silenceTimerRef s; timers := timers s;
       nextTimer := nextTimer s |} /\
  silenceCallback (silenceCallback s) = silenceCallback s /\
  (exists s',
      run listening [fragment (lit "Hello ") false; fragment (lit "world") false;
                     TimerFires 2] = Some s' /\
      finalizedTranscription s' = lit "Hello world " /\
      inProgressTranscription s' = []) /\
  (truthy (trim (inProgressTranscription s)) = false <-> all_ws (inProgressTranscription s)) /\
  (silenceCallback s = s <-> inProgressTranscription s = []) /\
  (exists l r, all_ws l /\ all_ws r /\
     inProgressTranscription s = l ++ trim (inProgressTranscription s) ++ r) /\
  (trim (inProgressTranscription s) = [] \/
   (exists c m d n,
      trim (inProgressTranscription s) = c :: m /\ is_ws c = false /\
      trim (inProgressTranscription s) = n ++ [d] /\ is_ws d = false) /\
   finalizedTranscription (silenceCallback s) =
     collapse_ws (finalizedTranscription s) ++
     collapse_ws (trim (inProgressTranscription s)) ++ [SPACE] /\
   has_ws_run (finalizedTranscription (silenceCallback s)) = false /\
   (has_ws_run (finalizedTranscription s ++ trim (inProgressTranscription s) ++ [SPACE]) = true \/
    finalizedTranscription (silenceCallback s) =
      finalizedTranscription s ++ trim (inProgressTranscription s) ++ [SPACE])) /\
  nonws (finalizedTranscription (silenceCallback s)) =
    nonws (finalizedTranscription s) ++ nonws (inProgressTranscription s) /\
  (exists s',
      run listening [fragment (lit "a   b") true; fragment (lit " c  d ") false;
                     TimerFires 1] = Some s' /\
      finalizedTranscription s' = lit "a b c d " /\
      inProgressTranscription s' = []) /\
  (exists s',
      run listening [fragment [120; 9; 121; 9; 9; 122]%N false; TimerFires 1] = Some s' /\
      finalizedTranscription s' = [120; 9; 121; 32; 122; 32]%N).
Proof.
  split; [reflexivity|]. split; [apply silenceCallback_finalized|].
  split; [reflexivity|]. split; [apply silenceCallback_idem|].
  split; [eexists; split; [vm_compute; reflexivity|]; split; reflexivity|].
  split; [apply trim_blank|]. split.
  { split.
    - intros H. apply (f_equal inProgressTranscription) in H.
      now rewrite silenceCallback_inProgress in H.
    - intros H. destruct (silenceCallback_frame s) as (H1 & H2 & H3 & H4 & H5).
      apply state_eq; try assumption.
      + rewrite silenceCallback_finalized, H. reflexivity.
      + now rewrite silenceCallback_inProgress. }
  split; [apply trim_split|]. split.
  { destruct (trim_tight (inProgressTranscription s))
      as [E|(c & m & d & n & Ec & Hc & Ed & Hd)]; [now left|right].
    assert (Hne : trim (inProgressTranscription s) <> []) by (rewrite Ec; discriminate).
    assert (Ht : truthy (trim (inProgressTranscription s)) = true) by (now rewrite Ec).
    split; [exists c, m, d, n; repeat split; assumption|].
    rewrite silenceCallback_finalized, Ht.
    split; [now apply collapse_ws_merge|].
    split; [apply replace_runs_no_run|].
    destruct (has_ws_run (finalizedTranscription s ++ trim (inProgressTranscription s) ++ [SPACE]))
      eqn:Hr; [now left|right]. now apply collapse_ws_fixed. }
  split; [apply silenceCallback_nonws|].
  split; eexists; (split; [vm_compute; reflexivity|]); repeat split.
Qed.

(** C3 as stated fails: a blank but non-empty in-progress text is discarded
    by the callback, so the firing is not a no-op. *)
Lemma blank_timeout_changes_state :
  exists s1 s2,
    run listening [fragment (lit " ") false] = Some s1 /\
    run listening [fragment (lit " ") false; TimerFires 1] = Some s2 /\
    all_ws (inProgressTranscription s1) /\
    inProgressTranscription s1 = lit " " /\
    inProgressTranscription s2 = [] /\
    s2 <> s1.
Proof.
  eexists. eexists. split; [vm_compute; reflexivity|].
  split; [vm_compute; reflexivity|].
  split; [repeat constructor|]. split; [reflexivity|]. split; [reflexivity|].
  intros H. apply (f_equal inProgressTranscription) in H. discriminate H.
Qed.

(** C4, as the code has it.  Fragment texts are joined with no separator
    between them, so the partial "Bonjour" followed by the final "le monde"
    gives "Bonjourle monde "; the in-progress text is empty and no timeout is
    pending. *)
Theorem bonjour_scenario :
  exists s,
    run listening [fragment (lit "Bonjour") false; fragment (lit "le monde") true] = Some s /\
    finalizedTranscription s = lit "Bonjourle monde " /\
    inProgressTranscription s = [] /\
    timers s = ∅.
Proof.
  eexists. split; [vm_compute; reflexivity|]. repeat split.
Qed.

(** C4 as stated fails: the finalized text is not "Bonjour le monde ". *)
Lemma bonjour_scenario_no_separator :
  exists s,
    run listening [fragment (lit "Bonjour") false; fragment (lit "le monde") true] = Some s /\
    finalizedTranscription s <> lit "Bonjour le monde ".
Proof.
  eexists. split; [vm_compute; reflexivity|]. discriminate.
Qed.

(** C5.  A sequence of partial fragments always runs; it appends the texts
    to the in-progress text in arrival order, untrimmed, and leaves the
    finalized text as it was.  From empty buffers the in-progress text is the
    concatenation of the texts. *)
Theorem partial_fragments_accumulate (texts : list jsstring) s :
  (exists s',
     run s (List.map (fun t => fragment t false) texts) = Some s' /\
     inProgressTranscription s' = inProgressTranscription s ++ List.concat texts /\
     finalizedTranscription s' = finalizedTranscription s) /\
  (exists s',
     run listening (List.map (fun t => fragment t false) texts) = Some s' /\
     inProgressTranscription s' = List.concat texts /\
     finalizedTranscription s' = []).
Proof.
  assert (H : forall s0, exists s',
     run s0 (List.map (fun t => fragment t false) texts) = Some s' /\
     inProgressTranscription s' = inProgressTranscription s0 ++ List.concat texts /\
     finalizedTranscription s' = finalizedTranscription s0).
  { clear s. induction texts as [|t texts IH]; intros s.
    - exists s. simpl. now rewrite app_nil_r.
    - simpl. destruct (IH (onmessage (transcript t false) s)) as (s' & Hrun & Hip & Hfin).
      exists s'. split; [exact Hrun|].
      rewrite onmessage_partial in Hip, Hfin. cbn in Hip, Hfin.
      split; [now rewrite Hip, app_assoc|exact Hfin]. }
  split; [apply H|]. destruct (H listening) as (s' & Hrun & Hip & Hfin).
  exists s'. split; [exact Hrun|]. split; assumption.
Qed.

End Assembler.

(** ** Stopping, and what the finalized text keeps *)

Section Session.

Implicit Types (s : State) (t : jsstring) (e : Event).




(** Once a stopped session has rendered, [stopListening] returns at its
    guard. *)
Lemma stop_after_render s :
  isListeningRef s = true ->
  stopListening (syncListeningRef (stopListening s)) = syncListeningRef (stopListening s).
Proof.
  intros L. rewrite (stopListening_listening s L). apply stopListening_idle. reflexivity.
Qed.

(** C7, as the code has it.  [stopListening] is idempotent: a second call
    right after the first changes nothing.  When the component is listening
    the pending in-progress text is committed once: after two calls the
    in-progress text is empty and the finalized text is the one a single
    flush gives, with the non-whitespace code units of the pending text once.
    When it is not listening both calls return at the guard and nothing is
    flushed. *)
Theorem stop_idempotent s :
  stopListening (stopListening s) = stopListening s /\
  finalizedTranscription (stopListening (stopListening s)) =
    (if isListeningRef s
     then (if truthy (trim (inProgressTranscription s))
           then collapse_ws (finalizedTranscription s ++ trim (inProgressTranscription s) ++ [SPACE])
           else finalizedTranscription s)
     else finalizedTranscription s) /\
  nonws (finalizedTranscription (stopListening (stopListening s))) =
    (if isListeningRef s
     then nonws (finalizedTranscription s) ++ nonws (inProgressTranscription s)
     else nonws (finalizedTranscription s)) /\
  inProgressTranscription (stopListening (stopListening s)) =
    (if isListeningRef s then [] else inProgressTranscription s) /\
  (truthy (trim (inProgressTranscription s)) = false <-> all_ws (inProgressTranscription s)) /\
  (if isListeningRef s then True else stopListening (stopListening s) = s).
Proof.
  assert (Hidem : stopListening (stopListening s) = stopListening s).
  { destruct (isListeningRef s) eqn:L.
    - rewrite (stopListening_listening s L).
      now rewrite stopListening_listening by reflexivity.
    - now rewrite !(stopListening_idle s L). }
  split; [exact Hidem|].
  rewrite Hidem. destruct (isListeningRef s) eqn:L.
  - rewrite (stopListening_listening s L).
    cbn [finalizedTranscription inProgressTranscription].
    split; [apply silenceCallback_finalized|]. split; [apply silenceCallback_nonws|].
    split; [reflexivity|]. split; [apply trim_blank|exact I].
  - rewrite (stopListening_idle s L). do 3 (split; [reflexivity|]).
    split; [apply trim_blank|reflexivity].
Qed.

(** C7 as stated fails: a component that is not listening can hold pending
    partial text (a fragment that arrives after the stop has rendered), and
    there the guard of [stopListening] returns before anything is flushed:
    after two calls the text is still in progress and its timeout pending. *)
Lemma idle_stop_flushes_nothing :
  exists s,
    run initial [Start; Rendered; fragment (lit "a") false; Stop; Rendered;
                 fragment (lit "late") false] = Some s /\
    isListeningRef s = false /\
    finalizedTranscription s = lit "a " /\
    inProgressTranscription s = lit "late" /\
    inProgressTranscription (stopListening (stopListening s)) = lit "late" /\
    finalizedTranscription (stopListening (stopListening s)) = lit "a " /\
    timers (stopListening (stopListening s)) = {[2%positive]}.
Proof.
  eexists. split; [vm_compute; reflexivity|]. repeat split.
Qed.

Lemma clear_commutes_with_append s t :
  clearSilenceTimer (setInProgressTranscription (fun prev => (prev ++ t, fun s => s)) s) =
  setInProgressTranscription (fun prev => (prev ++ t, fun s => s)) (clearSilenceTimer s).
Proof.
  unfold clearSilenceTimer, setInProgressTranscription. cbn.
  destruct (silenceTimerRef s) eqn:E; cbn; rewrite ?E; reflexivity.
Qed.

(** C9.  In every state the component can reach at most one timeout is
    pending, and it is the one held in [silenceTimerRef].  A fragment,
    partial or final, leaves no earlier timeout pending, so an earlier
    timeout cannot fire after it: after a final fragment nothing is pending,
    after a partial one only the newly issued handle is.  Cancelling the
    earlier timeout and appending the fragment's text commute. *)
Theorem one_live_timer es s :
  run initial es = Some s ->
  size (timers s) <= 1 /\
  (forall id, id ∈ timers s -> silenceTimerRef s = Some id) /\
  (forall t final id, id ∈ timers s ->
     (id ∉ timers (onmessage (transcript t final) s)) /\
     step (onmessage (transcript t final) s) (TimerFires id) = None) /\
  (forall t, timers (onmessage (transcript t true) s) = ∅) /\
  (forall t, timers (onmessage (transcript t false) s) = {[nextTimer s]} /\
             silenceTimerRef (onmessage (transcript t false) s) = Some (nextTimer s)) /\
  (forall t,
     clearSilenceTimer (setInProgressTranscription (fun prev => (prev ++ t, fun s => s)) s) =
     setInProgressTranscription (fun prev => (prev ++ t, fun s => s)) (clearSilenceTimer s)).
Proof.
  intros Hrun.
  pose proof (run_timer_inv es initial s timer_inv_initial Hrun) as Hinv.
  assert (Hfin : forall t, timers (onmessage (transcript t true) s) = ∅).
  { intros t. rewrite onmessage_final. cbn. now apply timer_inv_cleared. }
  assert (Hpar : forall t, timers (onmessage (transcript t false) s) = {[nextTimer s]}).
  { intros t. rewrite onmessage_partial. cbn. rewrite (timer_inv_cleared s Hinv).
    apply union_empty_r_L. }
  split; [now apply timer_inv_size|]. split; [apply Hinv|].
  split; [|split; [exact Hfin|split; [|intros t; apply clear_commutes_with_append]]].
  - intros t final id Hid.
    assert (Hnot : id ∉ timers (onmessage (transcript t final) s)).
    { destruct final.
      - rewrite Hfin. set_solver.
      - rewrite Hpar. destruct Hinv as [_ Hlt]. specialize (Hlt id Hid).
        intros Hin. apply elem_of_singleton in Hin. lia. }
    split; [exact Hnot|]. simpl. now destruct (decide _).
  - intros t. split; [apply Hpar|]. now rewrite onmessage_partial.
Qed.

Lemma one_live_timer_witness :
  exists s,
    run initial [Start; Rendered; fragment (lit "a") false; fragment (lit "b") false] = Some s /\
    size (timers s) <= 1 /\
    timers s = {[2%positive]} /\
    silenceTimerRef s = Some 2%positive.
Proof.
  eexists. split; [vm_compute; reflexivity|].
  split; [|split; reflexivity].
  apply (one_live_timer
           [Start; Rendered; fragment (lit "a") false; fragment (lit "b") false]).
  vm_compute; reflexivity.
Defined.

End Session.

(** ** Text is neither lost nor repeated *)

Section Conservation.

Implicit Types (s : State) (t : jsstring) (e : Event).

(** What one event of a session does to the non-whitespace content of the
    two buffers: the finalized text gains the in-progress content when the
    event commits, and the fragment's content is appended after it. *)
Lemma step_nonws s e s' :
  in_session e = true ->
  step s e = Some s' ->
  (exists appended,
     nonws (finalizedTranscription s') = nonws (finalizedTranscription s) ++ appended) /\
  nonws (finalizedTranscription s' ++ inProgressTranscription s') =
    nonws (finalizedTranscription s ++ inProgressTranscription s) ++ nonws (delivered [e]).
Proof.
  intros He Hstep.
  assert (Hsame : forall d,
    nonws d = [] ->
    (exists appended,
       nonws (finalizedTranscription s) = nonws (finalizedTranscription s) ++ appended) /\
    nonws (finalizedTranscription s ++ inProgressTranscription s) =
      nonws (finalizedTranscription s ++ inProgressTranscription s) ++ nonws d).
  { intros d ->. split; [exists []|]; now rewrite app_nil_r. }
  assert (Hflush : forall s0,
    finalizedTranscription s0 = finalizedTranscription s ->
    inProgressTranscription s0 = inProgressTranscription s ->
    (exists appended,
       nonws (finalizedTranscription (silenceCallback s0)) =
       nonws (finalizedTranscription s) ++ appended) /\
    nonws (finalizedTranscription (silenceCallback s0) ++ []) =
      nonws (finalizedTranscription s ++ inProgressTranscription s) ++ nonws []).
  { intros s0 Hf Hp. rewrite !app_nil_r, silenceCallback_nonws, nonws_app, Hf, Hp.
    split; [eexists|]; reflexivity. }
  destruct e as [| | |[[[t [|]]|]]|id]; simpl in Hstep; try discriminate He.
  - injection Hstep as <-. now apply (Hsame []).
  - injection Hstep as <-. destruct (isListeningRef s) eqn:L.
    + rewrite (stopListening_listening s L). now apply (Hflush s).
    + rewrite (stopListening_idle s L). now apply (Hsame []).
  - injection Hstep as <-. change (onmessage _ s) with (onmessage (transcript t true) s).
    rewrite onmessage_final. cbn [finalizedTranscription inProgressTranscription delivered text].
    assert (E : nonws (trim (finalizedTranscription s ++ inProgressTranscription s ++ t) ++ [SPACE])
                = nonws (finalizedTranscription s) ++ nonws (inProgressTranscription s) ++ nonws t).
    { now rewrite nonws_app, nonws_trim, nonws_space, app_nil_r, !nonws_app. }
    rewrite !app_nil_r, E. split; [eexists; reflexivity|].
    now rewrite nonws_app, app_assoc.
  - injection Hstep as <-. change (onmessage _ s) with (onmessage (transcript t false) s).
    rewrite onmessage_partial. cbn [finalizedTranscription inProgressTranscription delivered text].
    rewrite !app_nil_r. split.
    + exists []. now rewrite app_nil_r.
    + now rewrite app_assoc, !nonws_app.
  - injection Hstep as <-. now apply (Hsame []).
  - destruct (decide (id ∈ timers s)); [|discriminate]. injection Hstep as <-.
    now apply (Hflush (clearTimeout id s)).
Qed.

Lemma delivered_cons e es : delivered (e :: es) = delivered [e] ++ delivered es.
Proof.
  destruct e as [| | |[[r|]]|id]; simpl; try reflexivity.
  now rewrite app_nil_r.
Qed.

Lemma run_nonws es : forall s s',
  forallb in_session es = true ->
  run s es = Some s' ->
  nonws (finalizedTranscription s' ++ inProgressTranscription s') =
    nonws (finalizedTranscription s ++ inProgressTranscription s) ++ nonws (delivered es).
Proof.
  induction es as [|e es IH]; intros s s' Hes Hrun; simpl in Hrun.
  - injection Hrun as <-. simpl. now rewrite app_nil_r.
  - simpl in Hes. apply andb_prop in Hes as [He Hes].
    destruct (step s e) as [s1|] eqn:E; [|discriminate].
    rewrite (IH s1 s' Hes Hrun).
    destruct (step_nonws s e s1 He E) as [_ ->].
    now rewrite (delivered_cons e es), (nonws_app (delivered [e])), app_assoc.
Qed.

(** C10.  No event of a session touches the non-whitespace content already
    in the finalized text: the new finalized text has the same non-whitespace
    code units, in the same order, followed by what the event appended. *)
Theorem finalized_append_only s e s' :
  in_session e = true ->
  step s e = Some s' ->
  exists appended,
    nonws (finalizedTranscription s') = nonws (finalizedTranscription s) ++ appended.
Proof. intros He Hstep. exact (proj1 (step_nonws s e s' He Hstep)). Qed.

Lemma finalized_append_only_witness :
  exists s s',
    run listening [fragment (lit "a  b") true; fragment (lit " c ") false] = Some s /\
    in_session (TimerFires 1) = true /\
    step s (TimerFires 1) = Some s' /\
    finalizedTranscription s = lit "a  b " /\
    finalizedTranscription s' = lit "a b c " /\
    exists appended,
      nonws (finalizedTranscription s') = nonws (finalizedTranscription s) ++ appended.
Proof.
  eexists. eexists. split; [vm_compute; reflexivity|]. split; [reflexivity|].
  split; [vm_compute; reflexivity|]. split; [reflexivity|]. split; [reflexivity|].
  eapply (finalized_append_only _ (TimerFires 1)); [reflexivity | vm_compute; reflexivity].
Defined.

(** C1, as the code has it.  Over any sequence of fragments, timeouts and
    stops of a session, the non-whitespace code units delivered by the
    fragments are, in arrival order and once each, the non-whitespace code
    units of the finalized text followed by the in-progress text; and they are
    those of the finalized text alone right after a timeout fires, after a
    final fragment, and after a stop of a listening session.  Whitespace is
    not kept one for one. *)
Theorem nonblank_text_committed_once es s :
  forallb in_session es = true ->
  run listening es = Some s ->
  nonws (finalizedTranscription s ++ inProgressTranscription s) = nonws (delivered es) /\
  (forall id s', step s (TimerFires id) = Some s' ->
     inProgressTranscription s' = [] /\
     nonws (finalizedTranscription s') = nonws (delivered es)) /\
  (forall t,
     inProgressTranscription (onmessage (transcript t true) s) = [] /\
     nonws (finalizedTranscription (onmessage (transcript t true) s)) =
       nonws (delivered es) ++ nonws t) /\
  (isListeningRef s = true ->
     inProgressTranscription (stopListening s) = [] /\
     nonws (finalizedTranscription (stopListening s)) = nonws (delivered es)).
Proof.
  intros Hes Hrun.
  pose proof (run_nonws es listening s Hes Hrun) as H. cbn in H.
  split; [exact H|]. rewrite nonws_app in H. split; [|split].
  - intros id s' Hstep. unfold step in Hstep.
    destruct (decide (id ∈ timers s)); [|discriminate]. injection Hstep as <-.
    split; [reflexivity|]. rewrite silenceCallback_nonws. exact H.
  - intros t. rewrite onmessage_final. cbn. split; [reflexivity|].
    now rewrite nonws_app, nonws_trim, nonws_space, app_nil_r, !nonws_app, app_assoc, H.
  - intros L. rewrite (stopListening_listening s L).
    cbn [finalizedTranscription inProgressTranscription]. split; [reflexivity|].
    rewrite silenceCallback_nonws. exact H.
Qed.

Lemma nonblank_text_committed_once_witness :
  exists s,
    run listening [fragment (lit " a  b") false; fragment (lit "c ") false; TimerFires 2;
                   fragment (lit "d") false; Stop] = Some s /\
    finalizedTranscription s = lit "a bc d " /\
    nonws (finalizedTranscription s ++ inProgressTranscription s) = lit "abcd".
Proof.
  eexists. split; [vm_compute; reflexivity|]. split; [reflexivity|].
  refine (proj1 (nonblank_text_committed_once
    [fragment (lit " a  b") false; fragment (lit "c ") false; TimerFires 2;
     fragment (lit "d") false; Stop] _ _ _)); [reflexivity | vm_compute; reflexivity].
Defined.

(** C1 as stated fails: whitespace delivered in fragments is dropped by the
    commit.  The fragment "a    b" carries four spaces; after the timeout
    everything is committed and the finalized text "a b " has two. *)
Lemma whitespace_is_dropped :
  exists s,
    run listening [fragment (lit "a    b") false; TimerFires 1] = Some s /\
    inProgressTranscription s = [] /\
    finalizedTranscription s = lit "a b " /\
    count_occ N.eq_dec (delivered [fragment (lit "a    b") false; TimerFires 1]) SPACE = 4 /\
    count_occ N.eq_dec (finalizedTranscription s) SPACE = 2.
Proof.
  eexists. split; [vm_compute; reflexivity|]. repeat split.
Qed.

End Conservation.

(** ** The PCM frame encoder *)

Section Encoder.

Import Audio.

Local Ltac narith := zify; Z.to_euclidean_division_equations; lia.

Lemma binary_of_bytes (bytes acc : list N) :
  fold_left (fun binary b => binary ++ [b]) bytes acc = acc ++ bytes.
Proof.
  revert acc. induction bytes as [|b bytes IH]; intros acc; simpl.
  - now rewrite app_nil_r.
  - now rewrite IH, <- app_assoc.
Qed.

Lemma b64index_char i : (i < 64)%N -> b64index (b64char i) = Some i.
Proof.
  intros Hi. unfold b64char, b64index.
  repeat match goal with
         | |- context [N.ltb ?a ?b] => destruct (N.ltb_spec a b)
         | |- context [N.leb ?a ?b] => destruct (N.leb_spec a b)
         | |- context [N.eqb ?a ?b] => destruct (N.eqb_spec a b)
         | |- _ => progress cbn [andb]
         end; try (f_equal; lia); try lia.
Qed.

Lemma b64char_not_pad i : (i < 64)%N -> (b64char i =? PAD)%N = false.
Proof.
  intros Hi. apply N.eqb_neq. unfold b64char, PAD.
  repeat match goal with
         | |- context [N.ltb ?a ?b] => destruct (N.ltb_spec a b)
         | |- context [N.eqb ?a ?b] => destruct (N.eqb_spec a b)
         end; lia.
Qed.

Lemma base64_decode_group c1 c2 c3 c4 r :
  base64_decode (c1 :: c2 :: c3 :: c4 :: r) =
  match b64index c1, b64index c2 with
  | Some i1, Some i2 =>
      if (c4 =? PAD)%N then
        match r with
        | [] =>
            if (c3 =? PAD)%N then Some [i1 * 4 + i2 / 16]%N
            else match b64index c3 with
                 | Some i3 => Some [i1 * 4 + i2 / 16; (i2 mod 16) * 16 + i3 / 4]%N
                 | None => None
                 end
        | _ :: _ => None
        end
      else
        match b64index c3, b64index c4, base64_decode r with
        | Some i3, Some i4, Some rest =>
            Some ([i1 * 4 + i2 / 16; (i2 mod 16) * 16 + i3 / 4;
                   (i3 mod 4) * 64 + i4]%N ++ rest)
        | _, _, _ => None
        end
  | _, _ => None
  end.
Proof. reflexivity. Qed.

(** Decoding the base64 text of a byte sequence gives the bytes back. *)
Lemma base64_roundtrip (bytes : list N) :
  Forall (fun b => (b < 256)%N) bytes ->
  base64_decode (b64groups bytes) = Some bytes.
Proof.
  remember (length bytes) as n eqn:Hn. revert bytes Hn.
  induction n as [n IH] using lt_wf_ind. intros bytes Hn Hall.
  destruct bytes as [|a [|b [|c r]]].
  - reflexivity.
  - apply Forall_cons_iff in Hall as [Ha _].
    cbn [b64groups]. rewrite base64_decode_group.
    rewrite !b64index_char by narith. rewrite !N.eqb_refl.
    do 2 f_equal. narith.
  - apply Forall_cons_iff in Hall as [Ha Hall]. apply Forall_cons_iff in Hall as [Hb _].
    cbn [b64groups]. rewrite base64_decode_group.
    rewrite !b64index_char by narith. rewrite N.eqb_refl, b64char_not_pad by narith.
    f_equal. f_equal; [narith|]. f_equal. narith.
  - apply Forall_cons_iff in Hall as [Ha Hall]. apply Forall_cons_iff in Hall as [Hb Hall].
    apply Forall_cons_iff in Hall as [Hc Hall].
    cbn [b64groups app]. rewrite base64_decode_group.
    rewrite !b64index_char by narith. rewrite b64char_not_pad by narith.
    rewrite (IH (length r)); [|simpl in Hn; lia|reflexivity|exact Hall].
    f_equal. cbn [app]. f_equal; [narith|]. f_equal; [narith|]. f_equal. narith.
Qed.

Lemma int16_bytes_small v : Forall (fun b => (b < 256)%N) (int16_bytes v).
Proof. unfold int16_bytes. repeat constructor; narith. Qed.

Lemma frame_bytes_small (l : list Z) :
  Forall (fun b => (b < 256)%N) (flat_map int16_bytes l).
Proof.
  induction l as [|v l IH]; simpl; [constructor|].
  pose proof (int16_bytes_small v) as H. unfold int16_bytes in *.
  inversion H as [|? ? H1 H2]; subst. inversion H2; subst.
  now repeat constructor.
Qed.

Lemma btoa_bytes (bytes : list N) :
  Forall (fun b => (b < 256)%N) bytes -> btoa bytes = Some (b64groups bytes).
Proof.
  intros H. unfold btoa.
  replace (forallb (fun c => (c <? 256)%N) bytes) with true; [reflexivity|].
  symmetry. apply forallb_forall. intros x Hx.
  rewrite List.Forall_forall in H. apply N.ltb_lt. now apply H.
Qed.

(** [encode] never throws on bytes, and its text decodes to them. *)
Lemma encode_decodes (bytes : list N) :
  Forall (fun b => (b < 256)%N) bytes ->
  exists d, encode bytes = Some d /\ base64_decode d = Some bytes.
Proof.
  intros H. unfold encode. rewrite binary_of_bytes. cbn [app].
  rewrite (btoa_bytes bytes H). eexists. split; [reflexivity|].
  now apply base64_roundtrip.
Qed.

(** The two bytes of a 16-bit integer read back as that integer. *)
Lemma int16_le_roundtrip v :
  (-32768 <= v <= 32767)%Z ->
  int16_of_le (Z.to_N (v mod 256)) (Z.to_N ((v / 256) mod 256)) = v.
Proof.
  intros Hv. unfold int16_of_le.
  rewrite !Z2N.id by (apply Z.mod_pos_bound; lia).
  destruct (Z.leb_spec 32768 (v mod 256 + 256 * ((v / 256) mod 256)));
    Z.to_euclidean_division_equations; lia.
Qed.

Lemma truncate_bounds (q : Q) (k : Z) :
  (0 < k)%Z -> (inject_Z (- k) <= q)%Q -> (q < inject_Z k)%Q ->
  (- k <= truncate q < k)%Z.
Proof.
  destruct q as [n d]. unfold truncate, Qle, Qlt. cbn [Qnum Qden inject_Z].
  intros Hk Hlo Hhi.
  Z.to_euclidean_division_equations. nia.
Qed.

(** Truncation rounds toward zero: down for a non-negative number, up for a
    negative one. *)
Lemma truncate_toward_zero (q : Q) :
  truncate q = if Qle_bool 0 q then Qfloor q else Qceiling q.
Proof.
  destruct q as [n d]. unfold truncate, Qle_bool, Qceiling, Qfloor, Qopp.
  cbn [Qnum Qden]. rewrite Z.mul_1_r. change (0 * Z.pos d)%Z with 0%Z.
  destruct (Z.leb_spec 0 n).
  - apply Z.quot_div_nonneg; lia.
  - rewrite <- (Z.opp_involutive n) at 1. rewrite Z.quot_opp_l by lia.
    f_equal. apply Z.quot_div_nonneg; lia.
Qed.

Lemma in_range_bounds x :
  in_range x = true -> (inject_Z (- 32768) <= x * 32768)%Q /\ (x * 32768 < inject_Z 32768)%Q.
Proof.
  unfold in_range. intros H. apply andb_prop in H as [Hlo Hhi].
  apply Qle_bool_iff in Hlo. apply negb_true_iff in Hhi.
  assert (Hlt : (x < 1)%Q).
  { apply Qnot_le_lt. intros Hle. apply Qle_bool_iff in Hle. congruence. }
  destruct x as [n d]. unfold Qle, Qlt, Qmult in *. cbn [Qnum Qden inject_Z] in *. lia.
Qed.

(** On [[-1, 1)] the stored integer is the truncated product: no wrap. *)
Lemma ToInt16_in_range x :
  in_range x = true ->
  ToInt16 (times32768 (Finite x)) = truncate (x * 32768) /\
  (-32768 <= truncate (x * 32768) <= 32767)%Z.
Proof.
  intros H. destruct (in_range_bounds x H) as [Hlo Hhi].
  pose proof (truncate_bounds (x * 32768) 32768 ltac:(lia) Hlo Hhi) as Hb.
  split; [|lia]. cbn [ToInt16 times32768].
  destruct (Z.leb_spec 32768 (truncate (x * 32768) mod 65536));
    Z.to_euclidean_division_equations; lia.
Qed.

End Encoder.

Section EncoderClaims.

Import Audio.

Lemma frame_int16 (samples : list Q) :
  forallb in_range samples = true ->
  List.map (fun x => ToInt16 (times32768 x)) (List.map Finite samples) =
  List.map (fun x => truncate (x * 32768)) samples.
Proof.
  intros H. rewrite List.map_map. apply List.map_ext_in. intros x Hx.
  apply (ToInt16_in_range x). rewrite forallb_forall in H. now apply H.
Qed.

(** C8, as the code has it.  For samples in [[-1, 1)] the encoder succeeds;
    each sample becomes the 16-bit signed integer obtained by truncating
    [sample * 32768] toward zero; the integers are laid out low byte first
    (the two bytes read back as the integer); the payload's text is the
    base64 of those bytes and its type is "audio/pcm;rate=16000".  The frame
    [[0.5, -0.5]] gives "AEAAwA==", the bytes 0, 64, 0, 192 of 16384 and
    -16384. *)
Theorem createBlob_truncates (samples : list Q) :
  forallb in_range samples = true ->
  (exists blob,
     createBlob (List.map Finite samples) = Some blob /\
     mimeType blob = lit "audio/pcm;rate=16000" /\
     base64_decode (data blob) =
       Some (flat_map int16_bytes (List.map (fun x => truncate (x * 32768)) samples))) /\
  Forall (fun x =>
            ToInt16 (times32768 (Finite x)) = truncate (x * 32768) /\
            truncate (x * 32768) =
              (if Qle_bool 0 (x * 32768) then Qfloor (x * 32768) else Qceiling (x * 32768)) /\
            (-32768 <= truncate (x * 32768) <= 32767)%Z /\
            int16_bytes (truncate (x * 32768)) =
              [Z.to_N (truncate (x * 32768) mod 256);
               Z.to_N ((truncate (x * 32768) / 256) mod 256)] /\
            int16_of_le (Z.to_N (truncate (x * 32768) mod 256))
                        (Z.to_N ((truncate (x * 32768) / 256) mod 256))
              = truncate (x * 32768))
         samples /\
  createBlob [Finite (1 # 2); Finite (- 1 # 2)] =
    Some {| data := lit "AEAAwA=="; mimeType := lit "audio/pcm;rate=16000" |} /\
  base64_decode (lit "AEAAwA==") = Some [0; 64; 0; 192]%N /\
  int16_of_le 0 64 = 16384%Z /\
  int16_of_le 0 192 = (-16384)%Z.
Proof.
  intros H. split; [|split].
  - unfold createBlob. rewrite (frame_int16 samples H).
    destruct (encode_decodes _ (frame_bytes_small (List.map (fun x => truncate (x * 32768)) samples)))
      as (d & Henc & Hdec).
    rewrite Henc. eexists. split; [reflexivity|]. split; [reflexivity|exact Hdec].
  - apply List.Forall_forall. intros x Hx.
    rewrite forallb_forall in H. specialize (H x Hx).
    destruct (ToInt16_in_range x H) as [Hto Hb].
    split; [exact Hto|]. split; [apply truncate_toward_zero|]. split; [exact Hb|].
    split; [reflexivity|]. now apply int16_le_roundtrip.
  - repeat split; vm_compute; reflexivity.
Qed.

Lemma createBlob_truncates_witness :
  forallb in_range [1 # 2; - 1 # 2; 3 # 131072; - 3 # 131072; - 1 # 1] = true /\
  exists blob,
    createBlob (List.map Finite [1 # 2; - 1 # 2; 3 # 131072; - 3 # 131072; - 1 # 1]) = Some blob /\
    mimeType blob = lit "audio/pcm;rate=16000" /\
    base64_decode (data blob) =
      Some (flat_map int16_bytes
              (List.map (fun x => truncate (x * 32768))
                        [1 # 2; - 1 # 2; 3 # 131072; - 3 # 131072; - 1 # 1])).
Proof.
  split; [reflexivity|].
  apply (createBlob_truncates [1 # 2; - 1 # 2; 3 # 131072; - 3 # 131072; - 1 # 1]).
  reflexivity.
Defined.

(** C8 as stated fails: the conversion truncates, it does not round.  The
    sample [3 * 2^-17] scales to 0.75, which is stored as 0 and rounds to 1.
    At the sample 1 the product 32768 does not fit and is stored as -32768. *)
Lemma createBlob_does_not_round :
  in_range (3 # 131072) = true /\
  ((3 # 131072) * 32768 == 3 # 4)%Q /\
  ToInt16 (times32768 (Finite (3 # 131072))) = 0%Z /\
  round_nearest ((3 # 131072) * 32768) = 1%Z /\
  (-1 <= 1)%Q /\ (1 <= 1)%Q /\
  ToInt16 (times32768 (Finite 1)) = (-32768)%Z /\
  round_nearest (1 * 32768) = 32768%Z.
Proof.
  repeat split; try reflexivity; try discriminate.
Qed.

End EncoderClaims.

(** ** More on the PCM frame encoder *)

Section EncoderMore.

Import Audio.

Local Ltac narith := zify; Z.to_euclidean_division_equations; lia.

Lemma b64groups_length (bytes : list N) :
  length (b64groups bytes) = 4 * ((length bytes + 2) / 3).
Proof.
  remember (length bytes) as n eqn:Hn. revert bytes Hn.
  induction n as [n IH] using lt_wf_ind. intros bytes Hn.
  destruct bytes as [|a [|b [|c r]]]; try (subst n; reflexivity).
  cbn [b64groups]. rewrite length_app, (IH (length r)); [|simpl in Hn; lia|reflexivity].
  subst n. cbn [length]. narith.
Qed.

Lemma frame_bytes_length (l : list Z) : length (flat_map int16_bytes l) = 2 * length l.
Proof. induction l as [|v l IH]; simpl; [reflexivity|]. rewrite IH. lia. Qed.

Lemma b64symbol_char i : (i < 64)%N -> b64symbol (b64char i) = true.
Proof. intros Hi. unfold b64symbol. now rewrite b64index_char. Qed.

Lemma b64groups_symbols (bytes : list N) :
  Forall (fun b => (b < 256)%N) bytes ->
  Forall (fun c => b64symbol c = true) (b64groups bytes).
Proof.
  remember (length bytes) as n eqn:Hn. revert bytes Hn.
  induction n as [n IH] using lt_wf_ind. intros bytes Hn Hall.
  destruct bytes as [|a [|b [|c r]]].
  - constructor.
  - apply Forall_cons_iff in Hall as [Ha _]. cbn [b64groups].
    repeat constructor; apply b64symbol_char; narith.
  - apply Forall_cons_iff in Hall as [Ha Hall]. apply Forall_cons_iff in Hall as [Hb _].
    cbn [b64groups]. repeat constructor; apply b64symbol_char; narith.
  - apply Forall_cons_iff in Hall as [Ha Hall]. apply Forall_cons_iff in Hall as [Hb Hall].
    apply Forall_cons_iff in Hall as [Hc Hall]. cbn [b64groups].
    apply Forall_app. split.
    + repeat constructor; apply b64symbol_char; narith.
    + apply (IH (length r)); [simpl in Hn; lia|reflexivity|exact Hall].
Qed.

Lemma b64groups_app (a b : list N) :
  length a mod 3 = 0 -> b64groups (a ++ b) = b64groups a ++ b64groups b.
Proof.
  remember (length a) as n eqn:Hn. revert a Hn.
  induction n as [n IH] using lt_wf_ind. intros a Hn Hmod.
  destruct a as [|x [|y [|z r]]].
  - reflexivity.
  - subst n. discriminate Hmod.
  - subst n. discriminate Hmod.
  - cbn [app b64groups]. do 4 f_equal.
    apply (IH (length r)); [simpl in Hn; lia|reflexivity|].
    subst n. cbn [length] in Hmod. narith.
Qed.

Lemma createBlob_data (samples : list number) :
  createBlob samples =
  Some {| data := b64groups (flat_map int16_bytes
                               (List.map (fun x => ToInt16 (times32768 x)) samples));
          mimeType := lit "audio/pcm;rate=16000" |}.
Proof.
  unfold createBlob, encode. rewrite binary_of_bytes. cbn [app].
  now rewrite (btoa_bytes _ (frame_bytes_small _)).
Qed.

Lemma ToInt16_range (x : number) : (-32768 <= ToInt16 x <= 32767)%Z.
Proof.
  destruct x as [q| |b]; cbn [ToInt16]; try lia.
  destruct (Z.leb_spec 32768 (truncate q mod 65536)); Z.to_euclidean_division_equations; lia.
Qed.

Lemma truncate_opp (q : Q) : truncate (- q) = (- truncate q)%Z.
Proof.
  destruct q as [n d]. unfold truncate, Qopp. cbn [Qnum Qden].
  apply Z.quot_opp_l. lia.
Qed.

Lemma truncate_mono (p q : Q) : (p <= q)%Q -> (truncate p <= truncate q)%Z.
Proof.
  intros H. rewrite !truncate_toward_zero.
  destruct (Qle_bool 0 p) eqn:Hp; destruct (Qle_bool 0 q) eqn:Hq.
  - now apply Qfloor_resp_le.
  - apply Qle_bool_iff in Hp. exfalso.
    assert (Hq' : Qle_bool 0 q = true) by (apply Qle_bool_iff; now apply (Qle_trans _ p)).
    congruence.
  - apply Qle_bool_iff in Hq.
    assert (Hneg : (p < 0)%Q).
    { apply Qnot_le_lt. intros Hle. apply Qle_bool_iff in Hle. congruence. }
    apply Z.le_trans with 0%Z.
    + change 0%Z with (Qceiling 0). apply Qceiling_resp_le. now apply Qlt_le_weak.
    + change 0%Z with (Qfloor 0). now apply Qfloor_resp_le.
  - now apply Qceiling_resp_le.
Qed.

(** X1.  [createBlob] accepts every frame: whatever the samples (out of
    range, NaN and infinities included) it returns a payload, of type
    "audio/pcm;rate=16000", whose text decodes to two bytes per sample, the
    low and then the high byte of the stored 16-bit integer. *)
Theorem createBlob_accepts_every_frame (samples : list number) :
  exists blob,
    createBlob samples = Some blob /\
    mimeType blob = lit "audio/pcm;rate=16000" /\
    base64_decode (data blob) =
      Some (flat_map int16_bytes (List.map (fun x => ToInt16 (times32768 x)) samples)) /\
    List.map (fun x => ToInt16 (times32768 x)) [NaN; Infinity false; Infinity true]
      = [0; 0; 0]%Z.
Proof.
  rewrite createBlob_data. eexists. split; [reflexivity|]. split; [reflexivity|].
  split; [|reflexivity]. cbn [data]. apply base64_roundtrip. apply frame_bytes_small.
Qed.

(** X2.  The payload's text has four characters for every three bytes,
    rounded up: [4 * ceil(2n / 3)] for a frame of [n] samples; every
    character is a base64 letter, digit, '+', '/' or the padding '='. *)
Theorem createBlob_text_shape (samples : list number) :
  exists blob,
    createBlob samples = Some blob /\
    length (data blob) = 4 * ((2 * length samples + 2) / 3) /\
    Forall (fun c => b64symbol c = true) (data blob).
Proof.
  rewrite createBlob_data. eexists. split; [reflexivity|]. cbn [data]. split.
  - now rewrite b64groups_length, frame_bytes_length, length_map.
  - apply b64groups_symbols. apply frame_bytes_small.
Qed.

(** X3.  The integer stored for a sample is always a signed 16-bit value;
    for a finite product it differs from the truncated product by a multiple
    of 65536: a product outside the 16-bit range wraps around, it is not
    clamped. *)
Theorem stored_sample_wraps (q : Q) :
  (-32768 <= ToInt16 (Finite q) <= 32767)%Z /\
  (exists k, ToInt16 (Finite q) = truncate q + 65536 * k)%Z /\
  ((-32768 <= truncate q <= 32767)%Z <-> ToInt16 (Finite q) = truncate q).
Proof.
  split; [apply ToInt16_range|]. cbn [ToInt16]. split.
  - destruct (Z.leb_spec 32768 (truncate q mod 65536)).
    + exists (- (truncate q / 65536) - 1)%Z. Z.to_euclidean_division_equations; lia.
    + exists (- (truncate q / 65536))%Z. Z.to_euclidean_division_equations; lia.
  - destruct (Z.leb_spec 32768 (truncate q mod 65536));
      Z.to_euclidean_division_equations; lia.
Qed.

(** X4.  A sample in [[1, 2)] changes sign: it is stored as the truncated
    product minus 65536, a negative integer. *)
Theorem overdriven_sample_flips_sign (x : Q) :
  overdriven x = true ->
  ToInt16 (times32768 (Finite x)) = (truncate (x * 32768) - 65536)%Z /\
  (-32768 <= ToInt16 (times32768 (Finite x)) < 0)%Z.
Proof.
  unfold overdriven. intros H. apply andb_prop in H as [Hlo Hhi].
  apply Qle_bool_iff in Hlo. apply negb_true_iff in Hhi.
  assert (Hlt : (x < 2)%Q).
  { apply Qnot_le_lt. intros Hle. apply Qle_bool_iff in Hle. congruence. }
  assert (Hb : (32768 <= truncate (x * 32768) < 65536)%Z).
  { destruct x as [n d]. unfold truncate, Qle, Qlt, Qmult in *.
    cbn [Qnum Qden] in *. Z.to_euclidean_division_equations. nia. }
  cbn [ToInt16 times32768].
  destruct (Z.leb_spec 32768 (truncate (x * 32768) mod 65536));
    Z.to_euclidean_division_equations; lia.
Qed.

Lemma overdriven_sample_flips_sign_witness :
  overdriven (3 # 2) = true /\
  ToInt16 (times32768 (Finite (3 # 2))) = (-16384)%Z /\
  ToInt16 (times32768 (Finite (3 # 2))) = (truncate ((3 # 2) * 32768) - 65536)%Z.
Proof.
  split; [reflexivity|]. split; [reflexivity|].
  apply (overdriven_sample_flips_sign (3 # 2)). reflexivity.
Defined.

(** X5.  On [[-1, 1)] the conversion is monotone: a larger sample is never
    stored as a smaller integer. *)
Theorem stored_sample_monotone (x y : Q) :
  in_range x = true -> in_range y = true -> Qle_bool x y = true ->
  (ToInt16 (times32768 (Finite x)) <= ToInt16 (times32768 (Finite y)))%Z.
Proof.
  intros Hx Hy Hle. apply Qle_bool_iff in Hle.
  rewrite (proj1 (ToInt16_in_range x Hx)), (proj1 (ToInt16_in_range y Hy)).
  apply truncate_mono. apply Qmult_le_compat_r; [exact Hle|discriminate].
Qed.

Lemma stored_sample_monotone_witness :
  in_range (- 1 # 3) = true /\ in_range (1 # 3) = true /\
  Qle_bool (- 1 # 3) (1 # 3) = true /\
  (ToInt16 (times32768 (Finite (- 1 # 3))) <= ToInt16 (times32768 (Finite (1 # 3))))%Z.
Proof.
  repeat split.
  apply (stored_sample_monotone (- 1 # 3) (1 # 3)); reflexivity.
Defined.

(** X6.  On [(-1, 1)] the conversion is odd: the opposite sample is stored
    as the opposite integer, since truncation is toward zero. *)
Theorem stored_sample_odd (x : Q) :
  in_range x = true -> in_range (- x) = true ->
  ToInt16 (times32768 (Finite (- x))) = (- ToInt16 (times32768 (Finite x)))%Z.
Proof.
  intros Hx Hnx.
  rewrite (proj1 (ToInt16_in_range x Hx)), (proj1 (ToInt16_in_range (- x) Hnx)).
  rewrite <- truncate_opp. destruct x as [n d]. unfold truncate, Qmult, Qopp.
  cbn [Qnum Qden]. f_equal. lia.
Qed.

Lemma stored_sample_odd_witness :
  in_range (1 # 3) = true /\ in_range (- (1 # 3)) = true /\
  ToInt16 (times32768 (Finite (1 # 3))) = 10922%Z /\
  ToInt16 (times32768 (Finite (- (1 # 3)))) = (- ToInt16 (times32768 (Finite (1 # 3))))%Z.
Proof.
  split; [reflexivity|]. split; [reflexivity|]. split; [reflexivity|].
  apply (stored_sample_odd (1 # 3)); reflexivity.
Defined.

(** X7.  [encode] never throws on bytes, and it is injective on them: two
    byte sequences with the same text are the same sequence. *)
Theorem encode_injective (a b : list N) :
  forallb (fun x => (x <? 256)%N) a = true ->
  forallb (fun x => (x <? 256)%N) b = true ->
  encode a = encode b ->
  a = b /\ exists d, encode a = Some d.
Proof.
  intros Ha Hb Heq.
  assert (Hall : forall l, forallb (fun x => (x <? 256)%N) l = true ->
                           Forall (fun x => (x < 256)%N) l).
  { intros l Hl. apply List.Forall_forall. intros x Hx.
    rewrite forallb_forall in Hl. apply N.ltb_lt. now apply Hl. }
  destruct (encode_decodes a (Hall a Ha)) as (da & Hda & Hra).
  destruct (encode_decodes b (Hall b Hb)) as (db & Hdb & Hrb).
  split; [|now exists da]. rewrite Hda, Hdb in Heq. injection Heq as ->. congruence.
Qed.

Lemma encode_injective_witness :
  forallb (fun x => (x <? 256)%N) [0; 64; 255]%N = true /\
  encode [0; 64; 255]%N = encode [0; 64; 255]%N /\
  encode [0; 64; 255]%N = Some (lit "AED/") /\
  ([0; 64; 255]%N = [0; 64; 255]%N /\ exists d, encode [0; 64; 255]%N = Some d).
Proof.
  split; [reflexivity|]. split; [reflexivity|]. split; [reflexivity|].
  apply (encode_injective [0; 64; 255]%N [0; 64; 255]%N); reflexivity.
Defined.

(** X8.  When the first of two frames has a number of samples divisible by
    three, the text of the joined frame is the first text followed by the
    second; the mime type is the same. *)
Theorem createBlob_app (s1 s2 : list number) :
  length s1 mod 3 = 0 ->
  exists b1 b2 b,
    createBlob s1 = Some b1 /\ createBlob s2 = Some b2 /\
    createBlob (s1 ++ s2) = Some b /\
    data b = data b1 ++ data b2.
Proof.
  intros H. rewrite !createBlob_data. do 3 eexists.
  split; [reflexivity|]. split; [reflexivity|]. split; [reflexivity|]. cbn [data].
  rewrite List.map_app, flat_map_app. apply b64groups_app.
  rewrite frame_bytes_length, length_map. narith.
Qed.

Lemma createBlob_app_witness :
  length [Finite (1 # 2); Finite (- 1 # 2); NaN] mod 3 = 0 /\
  exists b1 b2 b,
    createBlob [Finite (1 # 2); Finite (- 1 # 2); NaN] = Some b1 /\
    createBlob [Finite (1 # 4)] = Some b2 /\
    createBlob ([Finite (1 # 2); Finite (- 1 # 2); NaN] ++ [Finite (1 # 4)]) = Some b /\
    data b = data b1 ++ data b2.
Proof.
  split; [reflexivity|].
  apply (createBlob_app [Finite (1 # 2); Finite (- 1 # 2); NaN] [Finite (1 # 4)]).
  reflexivity.
Defined.

End EncoderMore.

(** ** More on the transcript assembler *)

Section AssemblerMore.

Implicit Types (s : State) (t : jsstring) (e : Event).

Lemma run_app es1 : forall s es2,
  run s (es1 ++ es2) =
  match run s es1 with
  | Some s1 => run s1 es2
  | None => None
  end.
Proof.
  induction es1 as [|e es1 IH]; intros s es2; simpl; [reflexivity|].
  destruct (step s e); [apply IH|reflexivity].
Qed.

Lemma run_partials (texts : list jsstring) : forall s,
  exists s',
    run s (List.map (fun t => fragment t false) texts) = Some s' /\
    inProgressTranscription s' = inProgressTranscription s ++ List.concat texts /\
    finalizedTranscription s' = finalizedTranscription s /\
    isListeningRef s' = isListeningRef s.
Proof.
  induction texts as [|t texts IH]; intros s.
  - exists s. simpl. now rewrite app_nil_r.
  - simpl. destruct (IH (onmessage (transcript t false) s)) as (s' & Hrun & Hip & Hfin & Hl).
    exists s'. split; [exact Hrun|].
    rewrite onmessage_partial in Hip, Hfin, Hl. cbn in Hip, Hfin, Hl.
    split; [now rewrite Hip, app_assoc|]. split; assumption.
Qed.

(** X9.  How the service cuts the text into fragments does not matter to a
    final commit: partial fragments followed by a final one leave the two
    buffers as a single final fragment carrying the whole text would. *)
Theorem fragmentation_is_invisible (texts : list jsstring) t s :
  exists s',
    run s (List.map (fun t => fragment t false) texts ++ [fragment t true]) = Some s' /\
    finalizedTranscription s' =
      finalizedTranscription (onmessage (transcript (List.concat texts ++ t) true) s) /\
    inProgressTranscription s' =
      inProgressTranscription (onmessage (transcript (List.concat texts ++ t) true) s).
Proof.
  destruct (run_partials texts s) as (s1 & Hrun & Hip & Hfin & _).
  exists (onmessage (transcript t true) s1).
  rewrite run_app, Hrun. split; [reflexivity|].
  rewrite !onmessage_final. cbn. rewrite Hip, Hfin, <- !app_assoc. now split.
Qed.

Lemma step_spaced s e s' :
  spaced (finalizedTranscription s) -> step s e = Some s' ->
  spaced (finalizedTranscription s').
Proof.
  intros Hsp Hstep.
  assert (Hflush : forall s0, finalizedTranscription s0 = finalizedTranscription s ->
                              spaced (finalizedTranscription (silenceCallback s0))).
  { intros s0 H0. rewrite silenceCallback_finalized.
    destruct (truthy _); [|now rewrite H0].
    rewrite app_assoc. apply collapse_ws_spaced. }
  destruct e as [| | |[[[t [|]]|]]|id]; simpl in Hstep.
  - injection Hstep as <-. unfold startListening.
    destruct (isListening s); [exact Hsp|now left].
  - injection Hstep as <-. exact Hsp.
  - injection Hstep as <-. destruct (isListeningRef s) eqn:L.
    + rewrite (stopListening_listening s L). now apply Hflush.
    + now rewrite (stopListening_idle s L).
  - injection Hstep as <-. change (onmessage _ s) with (onmessage (transcript t true) s).
    rewrite onmessage_final. right. now eexists.
  - injection Hstep as <-. change (onmessage _ s) with (onmessage (transcript t false) s).
    rewrite onmessage_partial. exact Hsp.
  - injection Hstep as <-. exact Hsp.
  - destruct (decide (id ∈ timers s)); [|discriminate]. injection Hstep as <-.
    now apply Hflush.
Qed.

(** X10.  In every state the component can reach, the finalized text is
    empty or ends with a space, so text committed later is separated from
    what is already there. *)
Theorem finalized_ends_with_space es s :
  run initial es = Some s ->
  finalizedTranscription s = [] \/ exists p, finalizedTranscription s = p ++ [SPACE].
Proof.
  assert (H : forall es s0 s1, spaced (finalizedTranscription s0) ->
                               run s0 es = Some s1 -> spaced (finalizedTranscription s1)).
  { clear. induction es as [|e es IH]; intros s0 s1 Hsp Hrun; simpl in Hrun.
    - now injection Hrun as <-.
    - destruct (step s0 e) as [s2|] eqn:E; [|discriminate].
      apply (IH s2); [now apply (step_spaced s0 e)|assumption]. }
  intros Hrun. apply (H es initial s); [now left|exact Hrun].
Qed.

Lemma finalized_ends_with_space_witness :
  exists s,
    run initial [Start; Rendered; fragment (lit " a  b ") false; TimerFires 1;
                 fragment (lit " c") true] = Some s /\
    finalizedTranscription s = lit "a b  c " /\
    (finalizedTranscription s = [] \/ exists p, finalizedTranscription s = p ++ [SPACE]).
Proof.
  eexists. split; [vm_compute; reflexivity|]. split; [reflexivity|].
  apply (finalized_ends_with_space
           [Start; Rendered; fragment (lit " a  b ") false; TimerFires 1;
            fragment (lit " c") true]).
  vm_compute; reflexivity.
Defined.

(** X11.  Right after a commit by the silence timeout or by
    [stopListening], with a non-blank in-progress text, no two whitespace
    characters are adjacent anywhere in the finalized text: runs left by
    earlier final fragments are collapsed as well. *)
Theorem flush_leaves_no_whitespace_run s :
  truthy (trim (inProgressTranscription s)) = true ->
  has_ws_run (finalizedTranscription (silenceCallback s)) = false /\
  (isListeningRef s = true ->
   has_ws_run (finalizedTranscription (stopListening s)) = false).
Proof.
  intros H.
  assert (Hf : has_ws_run (finalizedTranscription (silenceCallback s)) = false).
  { rewrite silenceCallback_finalized, H. apply replace_runs_no_run. }
  split; [exact Hf|]. intros L. now rewrite (stopListening_listening s L).
Qed.

Lemma flush_leaves_no_whitespace_run_witness :
  exists s,
    run listening [fragment (lit "a   b") true; fragment (lit "c") false] = Some s /\
    truthy (trim (inProgressTranscription s)) = true /\
    has_ws_run (finalizedTranscription s) = true /\
    finalizedTranscription (silenceCallback s) = lit "a b c " /\
    has_ws_run (finalizedTranscription (silenceCallback s)) = false.
Proof.
  eexists. split; [vm_compute; reflexivity|]. split; [reflexivity|].
  split; [reflexivity|]. split; [reflexivity|].
  refine (proj1 (flush_leaves_no_whitespace_run _ _)). reflexivity.
Defined.

Lemma step_quiet_frozen s e s' :
  quiet e = true -> step s e = Some s' ->
  inProgressTranscription s = [] -> timers s = ∅ ->
  finalizedTranscription s' = finalizedTranscription s /\
  inProgressTranscription s' = [] /\ timers s' = ∅.
Proof.
  intros Hq Hstep Hip Ht. destruct e as [| | |m|id]; try discriminate Hq; simpl in Hstep.
  - injection Hstep as <-. now cbn.
  - injection Hstep as <-. destruct (isListeningRef s) eqn:L.
    + rewrite (stopListening_listening s L). cbn [finalizedTranscription inProgressTranscription timers].
      rewrite silenceCallback_finalized, Hip, Ht. split; [reflexivity|]. split; [reflexivity|].
      destruct (silenceTimerRef s); [|reflexivity]. apply difference_diag_L || apply set_eq.
      intros x. split; intros Hx; [apply elem_of_difference in Hx as [Hx _]|];
        now apply not_elem_of_empty in Hx.
    + now rewrite (stopListening_idle s L).
  - rewrite Ht in Hstep. destruct (decide (id ∈ ∅)) as [Hin|]; [|discriminate].
    now apply not_elem_of_empty in Hin.
Qed.

(** X12.  Once a listening session has been stopped, its transcript is
    frozen: no timeout is pending, so none can fire, and further stops and
    renders change neither buffer. *)
Theorem stopped_transcript_is_frozen es0 s es s' :
  run initial es0 = Some s ->
  isListeningRef s = true ->
  forallb quiet es = true ->
  run (stopListening s) es = Some s' ->
  finalizedTranscription s' = finalizedTranscription (stopListening s) /\
  inProgressTranscription s' = [] /\
  timers s' = ∅ /\
  (forall id, step s' (TimerFires id) = None) /\
  forallb (fun e => match e with TimerFires _ => false | _ => true end) es = true.
Proof.
  intros Hrun L Hq Hes.
  pose proof (run_timer_inv es0 initial s timer_inv_initial Hrun) as Hinv.
  assert (H0 : inProgressTranscription (stopListening s) = [] /\ timers (stopListening s) = ∅).
  { rewrite (stopListening_listening s L). cbn. split; [reflexivity|now apply timer_inv_cleared]. }
  destruct H0 as [Hip Ht]. revert Hq Hes Hip Ht. generalize (stopListening s). clear.
  induction es as [|e es IH]; intros s0 Hq Hes Hip Ht; simpl in Hes.
  - injection Hes as <-. repeat split; try assumption.
    intros id. simpl. rewrite Ht. destruct (decide (id ∈ ∅)) as [Hin|]; [|reflexivity].
    now apply not_elem_of_empty in Hin.
  - simpl in Hq. apply andb_prop in Hq as [He Hq].
    destruct (step s0 e) as [s1|] eqn:E; [|discriminate].
    destruct (step_quiet_frozen s0 e s1 He E Hip Ht) as (Hf & Hip1 & Ht1).
    destruct (IH s1 Hq Hes Hip1 Ht1) as (H1 & H2 & H3 & H4 & H5).
    rewrite H1, Hf. repeat split; try assumption. simpl. rewrite H5.
    destruct e; try reflexivity. simpl in E. rewrite Ht in E.
    destruct (decide (id ∈ ∅)) as [Hin|]; [|discriminate].
    now apply not_elem_of_empty in Hin.
Qed.

Lemma stopped_transcript_is_frozen_witness :
  exists s s',
    run initial [Start; Rendered; fragment (lit "a") false] = Some s /\
    isListeningRef s = true /\
    forallb quiet [Stop; Rendered; Stop] = true /\
    run (stopListening s) [Stop; Rendered; Stop] = Some s' /\
    finalizedTranscription s' = lit "a " /\
    finalizedTranscription s' = finalizedTranscription (stopListening s) /\
    run (stopListening s) [TimerFires 1] = None.
Proof.
  eexists. eexists. split; [vm_compute; reflexivity|]. split; [reflexivity|].
  split; [reflexivity|]. split; [vm_compute; reflexivity|]. split; [reflexivity|].
  split; [|vm_compute; reflexivity].
  refine (proj1 (stopped_transcript_is_frozen
                   [Start; Rendered; fragment (lit "a") false] _ [Stop; Rendered; Stop] _ _ _ _ _));
    try reflexivity; vm_compute; reflexivity.
Defined.

(** X13.  A final fragment with empty text that follows a final fragment
    changes neither buffer: the committed text is already trimmed and
    closed by one space. *)
Theorem empty_final_after_final s t :
  finalizedTranscription (onmessage (transcript [] true) (onmessage (transcript t true) s)) =
    finalizedTranscription (onmessage (transcript t true) s) /\
  inProgressTranscription (onmessage (transcript [] true) (onmessage (transcript t true) s)) =
    inProgressTranscription (onmessage (transcript t true) s).
Proof.
  rewrite (onmessage_final (onmessage (transcript t true) s)), onmessage_final.
  cbn [finalizedTranscription inProgressTranscription].
  split; [|reflexivity]. now rewrite !app_nil_r, trim_trim_space.
Qed.

(** X14.  In a rendered state of a reachable component the button toggles
    the session.  Clicking while listening stops: nothing stays pending, the
    in-progress text is flushed into the finalized text.  Clicking while idle
    starts: both buffers are emptied.  Two clicks with a render in between
    therefore always leave both buffers empty: stopping and starting again
    discards the transcript. *)
Theorem toggle_stops_or_starts es s :
  run initial es = Some s ->
  isListeningRef s = isListening s ->
  isListening (handleToggleListening s) = negb (isListening s) /\
  inProgressTranscription (handleToggleListening s) = [] /\
  finalizedTranscription (handleToggleListening s) =
    (if isListening s then finalizedTranscription (silenceCallback s) else []) /\
  timers (handleToggleListening s) = (if isListening s then ∅ else timers s) /\
  finalizedTranscription
    (handleToggleListening (syncListeningRef (handleToggleListening s))) = [] /\
  inProgressTranscription
    (handleToggleListening (syncListeningRef (handleToggleListening s))) = [].
Proof.
  intros Hrun Hsync.
  pose proof (run_timer_inv es initial s timer_inv_initial Hrun) as Hinv.
  assert (Hfirst :
    handleToggleListening s =
    if isListening s then stopListening s else startListening s) by reflexivity.
  destruct (isListening s) eqn:Hl.
  - rewrite Hfirst, (stopListening_listening s Hsync).
    cbn [isListening inProgressTranscription finalizedTranscription timers negb].
    rewrite (timer_inv_cleared s Hinv). repeat split.
  - rewrite Hfirst. unfold startListening at 1 2 3 4. rewrite Hl.
    cbn [isListening inProgressTranscription finalizedTranscription timers negb
         setInProgressTranscription setFinalizedTranscription setIsListening].
    repeat split.
    + unfold handleToggleListening, syncListeningRef, startListening, stopListening.
      rewrite Hl. cbn. now destruct (silenceTimerRef s).
    + unfold handleToggleListening, syncListeningRef, startListening, stopListening.
      rewrite Hl. cbn. now destruct (silenceTimerRef s).
Qed.

Lemma toggle_stops_or_starts_witness :
  exists s,
    run initial [Start; Rendered; fragment (lit "a") false] = Some s /\
    isListeningRef s = isListening s /\
    finalizedTranscription (handleToggleListening s) = lit "a " /\
    finalizedTranscription
      (handleToggleListening (syncListeningRef (handleToggleListening s))) = [] /\
    isListening (handleToggleListening s) = negb (isListening s).
Proof.
  eexists. split; [vm_compute; reflexivity|]. split; [reflexivity|].
  split; [reflexivity|]. split; [reflexivity|].
  refine (proj1 (toggle_stops_or_starts
                   [Start; Rendered; fragment (lit "a") false] _ _ _));
    [vm_compute; reflexivity | reflexivity].
Defined.

(** X15.  Blank text never reaches the finalized text through the silence
    timeout or [stopListening]: when the in-progress text and the partial
    fragments that follow are all whitespace, the flush leaves the finalized
    text as it was and discards them. *)
Theorem blank_text_is_discarded (texts : list jsstring) s :
  forallb is_ws (inProgressTranscription s ++ List.concat texts) = true ->
  exists s',
    run s (List.map (fun t => fragment t false) texts) = Some s' /\
    finalizedTranscription (silenceCallback s') = finalizedTranscription s /\
    inProgressTranscription (silenceCallback s') = [] /\
    finalizedTranscription (stopListening s') = finalizedTranscription s.
Proof.
  intros H. destruct (run_partials texts s) as (s' & Hrun & Hip & Hfin & Hl).
  exists s'. split; [exact Hrun|].
  assert (Hblank : truthy (trim (inProgressTranscription s')) = false).
  { apply trim_blank. rewrite Hip. apply List.Forall_forall. intros c Hc.
    rewrite forallb_forall in H. now apply H. }
  assert (Hf : finalizedTranscription (silenceCallback s') = finalizedTranscription s).
  { now rewrite silenceCallback_finalized, Hblank. }
  split; [exact Hf|]. split; [reflexivity|].
  destruct (isListeningRef s') eqn:L.
  - now rewrite (stopListening_listening s' L).
  - now rewrite (stopListening_idle s' L).
Qed.

Lemma blank_text_is_discarded_witness :
  forallb is_ws (inProgressTranscription listening ++ List.concat [lit " "; lit "  "]) = true /\
  exists s',
    run listening (List.map (fun t => fragment t false) [lit " "; lit "  "]) = Some s' /\
    finalizedTranscription (silenceCallback s') = finalizedTranscription listening /\
    inProgressTranscription (silenceCallback s') = [] /\
    finalizedTranscription (stopListening s') = finalizedTranscription listening.
Proof.
  split; [reflexivity|].
  apply (blank_text_is_discarded [lit " "; lit "  "] listening). reflexivity.
Defined.

End AssemblerMore.

(** ** The transcript of [App.tsx] *)

Section FirstVersion.

Import AppTsx.

Lemma slice_drops_turn (base fullTurn : jsstring) :
  fullTurn <> [] ->
  slice (base ++ fullTurn) 0 (- Z.of_nat (length fullTurn)) = base.
Proof.
  intros Hne. unfold slice. rewrite length_app.
  assert (Hlen : 0 < length fullTurn) by (destruct fullTurn; [congruence|simpl; lia]).
  destruct (Z.ltb_spec 0 0); [lia|].
  destruct (Z.ltb_spec (- Z.of_nat (length fullTurn)) 0); [|lia].
  replace (Z.min 0 (Z.of_nat (length base + length fullTurn))) with 0%Z by lia.
  replace (Z.max (Z.of_nat (length base + length fullTurn) + - Z.of_nat (length fullTurn)) 0)
    with (Z.of_nat (length base)) by lia.
  destruct (Z.ltb_spec 0 (Z.of_nat (length base))).
  - rewrite Z.sub_0_r, Nat2Z.id. change (Z.to_nat 0) with 0%nat.
    rewrite List.skipn_O.
    now rewrite List.firstn_app, Nat.sub_diag, List.firstn_all, List.firstn_O, app_nil_r.
  - destruct base; [reflexivity|simpl in *; lia].
Qed.

Lemma slice_empty_turn (prev : jsstring) : slice prev 0 (- Z.of_nat 0) = [].
Proof.
  unfold slice. change (- Z.of_nat 0)%Z with 0%Z. change (0 <? 0)%Z with false.
  replace (Z.min 0 (Z.of_nat (length prev))) with 0%Z by lia. reflexivity.
Qed.

(** The transcription always ends with the text of the turn in progress. *)
Lemma turn_is_suffix (ms : list LiveServerMessage) : forall s,
  (exists base, transcription s = base ++ currentTranscriptionRef s) ->
  exists base,
    transcription (receive s ms) = base ++ currentTranscriptionRef (receive s ms).
Proof.
  induction ms as [|m ms IH]; intros s Hs; [exact Hs|].
  simpl. apply IH. destruct Hs as [base Hb]. unfold onmessage.
  destruct (inputTranscription m) as [text|]; destruct (turnComplete m); cbn.
  - eexists. now rewrite app_nil_r.
  - exists base. now rewrite Hb, app_assoc.
  - eexists. now rewrite app_nil_r.
  - now exists base.
Qed.

(** X16.  When a turn completes and the turn has text, cutting the turn off
    the end of the transcription and putting it back is the identity there:
    the whole transcription, with the message's own text appended, is trimmed
    and closed by one space, and the turn is emptied. *)
Theorem turn_complete_retrims (ms : list LiveServerMessage) (text : jsstring) :
  truthy (currentTranscriptionRef (receive started ms) ++ text) = true ->
  transcription
    (onmessage {| inputTranscription := Some text; turnComplete := true |}
               (receive started ms)) =
    trim (transcription (receive started ms) ++ text) ++ [SPACE] /\
  currentTranscriptionRef
    (onmessage {| inputTranscription := Some text; turnComplete := true |}
               (receive started ms)) = [].
Proof.
  intros Hne. split; [|reflexivity].
  destruct (turn_is_suffix ms started) as [base Hb]; [now exists []|].
  unfold onmessage. cbn. rewrite Hb, <- app_assoc.
  rewrite slice_drops_turn; [reflexivity|].
  intros E. now rewrite E in Hne.
Qed.

Lemma turn_complete_retrims_witness :
  truthy (currentTranscriptionRef
            (receive started
               [{| inputTranscription := Some (lit "good "); turnComplete := true |};
                {| inputTranscription := Some (lit " mor"); turnComplete := false |}])
          ++ lit "ning ") = true /\
  transcription
    (onmessage {| inputTranscription := Some (lit "ning "); turnComplete := true |}
       (receive started
          [{| inputTranscription := Some (lit "good "); turnComplete := true |};
           {| inputTranscription := Some (lit " mor"); turnComplete := false |}]))
  = lit "good  morning ".
Proof.
  split; [reflexivity|].
  refine (eq_trans (proj1 (turn_complete_retrims
    [{| inputTranscription := Some (lit "good "); turnComplete := true |};
     {| inputTranscription := Some (lit " mor"); turnComplete := false |}]
    (lit "ning ") _)) _); reflexivity.
Defined.

(** X17.  When a turn completes and the turn is empty, the cut takes the
    whole transcription: whatever had been transcribed is replaced by a
    single space.  This happens for a turn completion that directly follows
    another one. *)
Theorem empty_turn_erases_transcription (ms : list LiveServerMessage) :
  currentTranscriptionRef (receive started ms) = [] ->
  transcription
    (onmessage {| inputTranscription := None; turnComplete := true |}
               (receive started ms)) = [SPACE] /\
  (forall m,
     turnComplete m = true ->
     transcription
       (onmessage {| inputTranscription := None; turnComplete := true |}
                  (onmessage m (receive started ms))) = [SPACE]).
Proof.
  intros Href. split.
  - unfold onmessage. cbn. rewrite Href. cbn [length]. now rewrite slice_empty_turn.
  - intros m Hm. unfold onmessage. rewrite Hm. cbn. now rewrite slice_empty_turn.
Qed.

Lemma empty_turn_erases_transcription_witness :
  currentTranscriptionRef
    (receive started
       [{| inputTranscription := Some (lit "good morning"); turnComplete := true |}]) = [] /\
  transcription
    (receive started
       [{| inputTranscription := Some (lit "good morning"); turnComplete := true |}])
    = lit "good morning " /\
  transcription
    (onmessage {| inputTranscription := None; turnComplete := true |}
       (receive started
          [{| inputTranscription := Some (lit "good morning"); turnComplete := true |}]))
    = [SPACE].
Proof.
  split; [reflexivity|]. split; [reflexivity|].
  refine (proj1 (empty_turn_erases_transcription
    [{| inputTranscription := Some (lit "good morning"); turnComplete := true |}] _)).
  reflexivity.
Defined.

End FirstVersion.
